(** * wake-me-up: the alert store of [cmd/wake-me-up]

    A shallow embedding of the alert-state engine of the Go program
    ([alert.go], [webhook.go] and the store operations of [app.go]) and
    the properties of its natural-language specification, followed by the
    handlers that serve the store, the authentication middleware of
    [auth.go] and the hub of the live updates, with properties read off
    their code.

    Conventions of the embedding:
    - a Go [map[string]string] / [map[string]bool] is a [gmap]; a [nil] map
      and an empty map are both [∅] (Go's [len], lookup and [range] do not
      tell them apart);
    - a Go slice is a [list], newest entry first as the program keeps it;
    - the mutex-protected fields of [AppState] are threaded explicitly, one
      critical section being one function on [AppState];
    - [time.Now()] is an input of the operation that calls it. *)

From Stdlib Require Import Ascii.
From stdpp Require Import base decidable option numbers list strings pretty.
From stdpp Require Import sorting gmap fin_maps.

Open Scope Z_scope.

(** ** Time values *)

(** A [time.Time] obtained from [time.Now()] carries a wall-clock reading and
    a monotonic-clock reading.  [UnixNano] reads the wall clock; [After]
    compares the monotonic readings when both operands have one, which is the
    case for every timestamp the store holds. *)
Record Time := mkTime { wall : Z; mono : Z }.

Definition UnixNano (t : Time) : Z := wall t.
Definition After (t u : Time) : bool := bool_decide (mono u < mono t).

(** ** alert.go *)

Record Alert := mkAlert {
  Status : string;
  Labels : gmap string string;
  StartsAt : Z;
  EndsAt : option Z;
  GeneratorURL : string
}.

(** [for key, v := range m { w, exists := m'[key]; if !exists || w != v
    { return false } }]: the loop leaves with [false] exactly when some
    binding fails the test, whatever order [range] picks. *)
Definition labelsAllIn (m m' : gmap string string) : bool :=
  forallb (λ kv, match m' !! kv.1 with
                 | Some w => bool_decide (w = kv.2)
                 | None => false
                 end) (map_to_list m).

Definition alertsMatch (resolvedAlert firingAlert : Alert) : bool :=
  if bool_decide (size (Labels resolvedAlert) = 0%nat)
     || bool_decide (size (Labels firingAlert) = 0%nat) then false
  else if negb (bool_decide (size (Labels resolvedAlert) = size (Labels firingAlert)))
  then false
  else if negb (labelsAllIn (Labels resolvedAlert) (Labels firingAlert)) then false
  else if negb (labelsAllIn (Labels firingAlert) (Labels resolvedAlert)) then false
  else true.

(** ** webhook.go *)

Record WebhookPayload := mkPayload {
  payloadStatus : string;
  Alerts : list Alert
}.

Record AlertEntry := mkEntry {
  ID : string;
  Timestamp : Time;
  EAlert : Alert
}.

(** ** app.go: the store *)

(** The fields of [AppState] that the store operations read or write.  The
    sound-loop fields ([soundPlaying], [soundStopChan], [currentSoundCmd])
    and [config] are touched by no operation below. *)
Record AppState := mkAppState {
  alerts : list AlertEntry;
  maxSize : Z;
  acknowledged : gmap string bool
}.

Definition NewAppState (maxSize : Z) : AppState :=
  {| alerts := []; maxSize := maxSize; acknowledged := ∅ |}.

(** [m[id]] on a [map[string]bool]: the zero value [false] when absent. *)
Definition ackLookup (m : gmap string bool) (id : string) : bool :=
  default false (m !! id).

(** [fmt.Sprintf("%d-%d", baseID, i)] *)
Definition SprintfID (baseID : Z) (i : nat) : string :=
  pretty baseID +:+ "-" +:+ pretty (Z.of_nat i).

Definition isResolved (alert : Alert) : bool :=
  bool_decide (Status alert = "resolved").
Definition isFiring (alert : Alert) : bool :=
  bool_decide (Status alert = "firing").

Definition hasResolvedAlerts (alerts : list Alert) : bool :=
  existsb isResolved alerts.

(** The inner loop of [removeMatchingFiringAlerts]: the first resolved alert
    that matches the entry, if the entry is firing ([shouldRemove] is
    [true] exactly when there is one). *)
Definition matchingResolved (resolved : list Alert) (entry : AlertEntry)
  : option Alert :=
  if isFiring (EAlert entry)
  then List.find (λ resolvedAlert, alertsMatch resolvedAlert (EAlert entry)) resolved
  else None.

(** One iteration of the outer loop, on the loop's variables
    [(filtered, a.acknowledged, matchedResolvedAlerts)]. *)
Definition removeStep (resolved : list Alert)
    (st : list AlertEntry * gmap string bool * list Alert) (entry : AlertEntry)
  : list AlertEntry * gmap string bool * list Alert :=
  let '(filtered, ack, matchedResolvedAlerts) := st in
  match matchingResolved resolved entry with
  | None => (filtered ++ [entry], ack, matchedResolvedAlerts)
  | Some matchedResolvedAlert =>
      (filtered, delete (ID entry) ack,
       matchedResolvedAlerts ++ [matchedResolvedAlert])
  end.

Definition removeMatchingFiringAlerts (a : AppState) (resolvedAlerts : list Alert)
  : AppState * list Alert :=
  let resolved := filter (λ alert, isResolved alert) resolvedAlerts in
  if bool_decide (length resolved = 0%nat) then (a, [])
  else
    let '(filtered, ack, matchedResolvedAlerts) :=
      foldl (removeStep resolved) ([], acknowledged a, []) (alerts a) in
    ({| alerts := filtered; maxSize := maxSize a; acknowledged := ack |},
     matchedResolvedAlerts).

(** The insertion loop of [AddWebhook], [for i, alert := range
    payload.Alerts], from index [i] on. *)
Fixpoint addAlerts (timestamp : Time) (baseID : Z)
    (matchedResolvedAlerts : list Alert) (i : nat) (rest : list Alert)
    (stored : list AlertEntry) : list AlertEntry :=
  match rest with
  | [] => stored
  | alert :: rest' =>
      if isResolved alert
         && negb (existsb (λ matchedAlert, alertsMatch alert matchedAlert)
                    matchedResolvedAlerts)
      then addAlerts timestamp baseID matchedResolvedAlerts (S i) rest' stored
      else
        let alertEntry :=
          {| ID := SprintfID baseID i; Timestamp := timestamp; EAlert := alert |} in
        addAlerts timestamp baseID matchedResolvedAlerts (S i) rest'
          (alertEntry :: stored)
  end.

(** The store as [AddWebhook] has it just before the [maxSize] cut. *)
Definition ingested (a : AppState) (now : Time) (payload : WebhookPayload)
  : AppState :=
  let timestamp := now in
  let baseID := UnixNano timestamp in
  let '(a1, matchedResolvedAlerts) :=
    if bool_decide (payloadStatus payload = "resolved")
       || hasResolvedAlerts (Alerts payload)
    then removeMatchingFiringAlerts a (Alerts payload)
    else (a, []) in
  {| alerts := addAlerts timestamp baseID matchedResolvedAlerts 0
                 (Alerts payload) (alerts a1);
     maxSize := maxSize a1;
     acknowledged := acknowledged a1 |}.

(** [if len(a.alerts) > a.maxSize { a.alerts = a.alerts[:a.maxSize] }]: with
    a negative [maxSize] the test always succeeds and the slice expression
    panics, which is [None]. *)
Definition truncate (a : AppState) : option AppState :=
  if bool_decide (maxSize a < Z.of_nat (length (alerts a))) then
    if bool_decide (maxSize a < 0) then None
    else Some {| alerts := take (Z.to_nat (maxSize a)) (alerts a);
                 maxSize := maxSize a;
                 acknowledged := acknowledged a |}
  else Some a.

Definition AddWebhook (a : AppState) (now : Time) (payload : WebhookPayload)
  : option AppState :=
  truncate (ingested a now payload).

Definition HasUnacknowledgedAlerts (a : AppState) : bool :=
  existsb (λ entry,
             if ackLookup (acknowledged a) (ID entry) then false
             else isFiring (EAlert entry)) (alerts a).

Definition IsAcknowledged (a : AppState) (alertID : string) : bool :=
  ackLookup (acknowledged a) alertID.

Definition Acknowledge (a : AppState) (alertID : string) : AppState :=
  {| alerts := alerts a; maxSize := maxSize a;
     acknowledged := <[alertID := true]> (acknowledged a) |}.

(** One iteration of the loop of [ClearAcknowledgedAndResolved], on
    [(filtered, a.acknowledged, clearedCount)]: the acknowledgement is read
    from the map as the earlier iterations left it. *)
Definition clearStep (st : list AlertEntry * gmap string bool * Z)
    (entry : AlertEntry) : list AlertEntry * gmap string bool * Z :=
  let '(filtered, ack, clearedCount) := st in
  let isAcknowledged := ackLookup ack (ID entry) in
  if isFiring (EAlert entry) && negb isAcknowledged
  then (filtered ++ [entry], ack, clearedCount)
  else (filtered, delete (ID entry) ack, clearedCount + 1).

Definition ClearAcknowledgedAndResolved (a : AppState) : AppState * Z :=
  let '(filtered, ack, clearedCount) :=
    foldl clearStep ([], acknowledged a, 0) (alerts a) in
  ({| alerts := filtered; maxSize := maxSize a; acknowledged := ack |},
   clearedCount).

Definition getAlertPriority (status : string) (acknowledged : bool) : Z :=
  if bool_decide (status = "firing") && negb acknowledged then 0
  else if bool_decide (status = "firing") && acknowledged then 1
  else 2.

Definition entryPriority (a : AppState) (entry : AlertEntry) : Z :=
  getAlertPriority (Status (EAlert entry)) (ackLookup (acknowledged a) (ID entry)).

(** The [less] closure handed to [sort.Slice] in [GetAlerts]. *)
Definition less (a : AppState) (iEntry jEntry : AlertEntry) : bool :=
  let iPriority := entryPriority a iEntry in
  let jPriority := entryPriority a jEntry in
  if negb (bool_decide (iPriority = jPriority))
  then bool_decide (iPriority < jPriority)
  else After (Timestamp iEntry) (Timestamp jEntry).

(** [sort.Slice(result, less)] on a copy of [a.alerts].  The library sort is
    a comparison sort that is not stable; it is rendered by a merge sort on
    the order "[y] is not less than [x]", and nothing below depends on how
    entries that [less] does not separate are arranged. *)
Definition notAfter (a : AppState) (x y : AlertEntry) : Prop :=
  less a y x = false.

#[global] Instance notAfter_dec (a : AppState) (x y : AlertEntry) :
  Decision (notAfter a x y).
Proof. unfold notAfter. apply _. Defined.

Definition GetAlerts (a : AppState) : list AlertEntry :=
  merge_sort (notAfter a) (alerts a).

(** ** Runs of the store *)

Inductive Op :=
| OpAddWebhook (now : Time) (payload : WebhookPayload)
| OpAcknowledge (alertID : string)
| OpClear.

Definition step (a : AppState) (op : Op) : option AppState :=
  match op with
  | OpAddWebhook now payload => AddWebhook a now payload
  | OpAcknowledge alertID => Some (Acknowledge a alertID)
  | OpClear => Some (ClearAcknowledgedAndResolved a).1
  end.

Fixpoint run (a : AppState) (ops : list Op) : option AppState :=
  match ops with
  | [] => Some a
  | op :: ops' =>
      match step a op with
      | Some a' => run a' ops'
      | None => None
      end
  end.

(** The wall-clock readings of the ingestions of a run. *)
Definition ingestClock (op : Op) : list Z :=
  match op with
  | OpAddWebhook now _ => [UnixNano now]
  | _ => []
  end.

Definition ingestClocks (ops : list Op) : list Z :=
  concat (map ingestClock ops).

(** ** Sample notifications *)

Definition labelled (status : string) (labels : gmap string string) : Alert :=
  {| Status := status; Labels := labels; StartsAt := 0; EndsAt := None;
     GeneratorURL := "" |}.

Definition firingA : Alert := labelled "firing" {["alertname" := "A"]}.
Definition resolvedA : Alert := labelled "resolved" {["alertname" := "A"]}.
Definition firingB : Alert := labelled "firing" {["alertname" := "B"]}.
Definition resolvedB : Alert := labelled "resolved" {["alertname" := "B"]}.
Definition firingC : Alert := labelled "firing" {["alertname" := "C"]}.
Definition firingNoLabels : Alert := labelled "firing" ∅.

Definition notify (status : string) (alerts : list Alert) : WebhookPayload :=
  {| payloadStatus := status; Alerts := alerts |}.

Definition at_ (n : Z) : Time := {| wall := n; mono := n |}.

(** The store as [main] creates it: [NewAppState(100)]. *)
Definition fresh : AppState := NewAppState 100.

(** A firing alert is ingested, then its resolution. *)
Definition firingThenResolved : list Op :=
  [OpAddWebhook (at_ 1) (notify "firing" [firingA]);
   OpAddWebhook (at_ 2) (notify "resolved" [resolvedA])].

(** The same firing alert is notified twice (Alertmanager repeats a firing
    notification every [repeatInterval]). *)
Definition twiceFiring : list Op :=
  [OpAddWebhook (at_ 1) (notify "firing" [firingA]);
   OpAddWebhook (at_ 2) (notify "firing" [firingA])].

(** Two ingestions read the same wall-clock instant (a coarse or stepped
    wall clock; the monotonic clock has moved on); the second one resolves
    an older alert, and the id the two new entries share is then
    acknowledged. *)
Definition sameInstant : list Op :=
  [OpAddWebhook (at_ 1) (notify "firing" [firingA]);
   OpAddWebhook {| wall := 2; mono := 2 |} (notify "firing" [firingB]);
   OpAddWebhook {| wall := 2; mono := 3 |} (notify "resolved" [resolvedA]);
   OpAcknowledge "2-0"].

(** Three firing alerts, one notification each. *)
Definition threeFiring : list Op :=
  [OpAddWebhook (at_ 1) (notify "firing" [firingA]);
   OpAddWebhook (at_ 2) (notify "firing" [firingB]);
   OpAddWebhook (at_ 3) (notify "firing" [firingC])].

(** A store that holds a firing entry without labels. *)
Definition unlabelledStore : AppState :=
  {| alerts := [{| ID := "1-0"; Timestamp := at_ 1; EAlert := firingNoLabels |}];
     maxSize := 100;
     acknowledged := ∅ |}.

(** An entry is acknowledged, then resolved. *)
Definition acknowledgedThenResolved : list Op :=
  [OpAddWebhook (at_ 1) (notify "firing" [firingA]);
   OpAcknowledge "1-0";
   OpAddWebhook (at_ 2) (notify "resolved" [resolvedA])].

(** An acknowledged entry is pushed out of a store of capacity one. *)
Definition acknowledgedThenEvicted : list Op :=
  [OpAddWebhook (at_ 1) (notify "firing" [firingA]);
   OpAcknowledge "1-0";
   OpAddWebhook (at_ 2) (notify "firing" [firingB])].

(** A store with an unacknowledged firing entry, a resolved entry and an
    acknowledged firing entry, as it is kept (newest first). *)
Definition mixedStore : AppState :=
  {| alerts := [{| ID := "3-0"; Timestamp := at_ 3; EAlert := firingC |};
                {| ID := "2-0"; Timestamp := at_ 2; EAlert := resolvedA |};
                {| ID := "1-0"; Timestamp := at_ 1; EAlert := firingB |}];
     maxSize := 100;
     acknowledged := {["1-0" := true]} |}.

(** Two notifications are ingested at one wall-clock instant. *)
Definition sameClockTwice : list Op :=
  [OpAddWebhook {| wall := 1; mono := 1 |} (notify "firing" [firingA]);
   OpAddWebhook {| wall := 1; mono := 2 |} (notify "firing" [firingB])].

(** ** Views of the loops used in the statements *)

(** [shouldRemove] at the end of the inner loop of
    [removeMatchingFiringAlerts]. *)
Definition shouldRemove (resolved : list Alert) (entry : AlertEntry) : bool :=
  match matchingResolved resolved entry with
  | Some _ => true
  | None => false
  end.

(** [delete(a.acknowledged, entry.ID)] for each entry of a list in turn. *)
Definition deleteIDs (ack : gmap string bool) (removed : list AlertEntry)
  : gmap string bool :=
  foldl (λ ack entry, delete (ID entry) ack) ack removed.

(** The resolved alerts of a notification, as [removeMatchingFiringAlerts]
    extracts them. *)
Definition resolvedOf (notification : list Alert) : list Alert :=
  filter (λ alert, isResolved alert) notification.

(** The test of the insertion loop: an alert is skipped when it is resolved
    and matches none of the recorded resolved alerts. *)
Definition accepted (matchedResolvedAlerts : list Alert) (alert : Alert) : bool :=
  negb (isResolved alert
        && negb (existsb (λ matchedAlert, alertsMatch alert matchedAlert)
                   matchedResolvedAlerts)).

(** The entries the insertion loop creates, in notification order. *)
Fixpoint newEntries (timestamp : Time) (baseID : Z)
    (matchedResolvedAlerts : list Alert) (i : nat) (rest : list Alert)
  : list AlertEntry :=
  match rest with
  | [] => []
  | alert :: rest' =>
      (if accepted matchedResolvedAlerts alert
       then [{| ID := SprintfID baseID i; Timestamp := timestamp; EAlert := alert |}]
       else [])
      ++ newEntries timestamp baseID matchedResolvedAlerts (S i) rest'
  end.

(** The loop of [ClearAcknowledgedAndResolved] from a given acknowledgement
    map: the entries it keeps, the map it leaves and the number it clears. *)
Fixpoint clearFrom (ack : gmap string bool) (l : list AlertEntry)
  : list AlertEntry * gmap string bool * Z :=
  match l with
  | [] => ([], ack, 0)
  | entry :: l' =>
      if isFiring (EAlert entry) && negb (ackLookup ack (ID entry))
      then let '(kept, ack', n) := clearFrom ack l' in (entry :: kept, ack', n)
      else let '(kept, ack', n) := clearFrom (delete (ID entry) ack) l' in
           (kept, ack', n + 1)
  end.

(** Firing and not acknowledged, by a given acknowledgement map. *)
Definition unackFiring (ack : gmap string bool) (entry : AlertEntry) : bool :=
  isFiring (EAlert entry) && negb (ackLookup ack (ID entry)).

(** Whether a string contains the separator of [SprintfID]. *)
Fixpoint hasDash (s : string) : bool :=
  match s with
  | EmptyString => false
  | String c s' => bool_decide (c = "-"%char) || hasDash s'
  end.

(** The store invariant on ids: they are pairwise distinct, and each was
    printed from one of the given wall-clock readings. *)
Definition idsFrom (clocks : list Z) (a : AppState) : Prop :=
  NoDup (ID <$> alerts a)
  ∧ ∀ e, e ∈ alerts a → ∃ (b : Z) (i : nat), b ∈ clocks ∧ ID e = SprintfID b i.

(** The entry the insertion loop builds for the alert at index [i]. *)
Definition entryAt (now : Time) (i : nat) (alert : Alert) : AlertEntry :=
  {| ID := SprintfID (UnixNano now) i; Timestamp := now; EAlert := alert |}.

(** ** alert.go and the index page: what is shown for the store *)




(** ** Requests and responses *)

(** What the handlers read of an [http.Request]: [Header] is
    [r.Header.Get], [TLS] is [r.TLS != nil], [QueryID] is
    [r.URL.Query().Get("id")], and [Body] is what
    [json.NewDecoder(r.Body).Decode(&payload)] gives, the text of its error
    or the payload. *)
Record Request := mkRequest {
  Method : string;
  Header : string → string;
  RemoteAddr : string;
  TLS : bool;
  QueryID : string;
  Body : string + WebhookPayload
}.

Record Response := mkResponse {
  StatusCode : Z;
  ResponseBody : string
}.

(** [http.Error(w, msg, code)] *)
Definition httpError (msg : string) (code : Z) : Response :=
  {| StatusCode := code; ResponseBody := msg +:+ "
" |}.

(** [w.WriteHeader(http.StatusOK); w.Write(body)] *)
Definition httpOK (body : string) : Response :=
  {| StatusCode := 200; ResponseBody := body |}.

(** A handler closed over the [*AppState]: the request, the reading of the
    clock if it takes one, and the state, to the new state and the response;
    [None] when it panics. *)
Definition Handler : Type :=
  Request → Time → AppState → option (AppState * Response).

(** ** app.go: the handlers of the store *)

Definition webhookHandler : Handler := λ r now state,
  if negb (bool_decide (Method r = "POST"))
  then Some (state, httpError "Method not allowed" 405)
  else
    match Body r with
    | inl err => Some (state, httpError ("Invalid JSON: " +:+ err) 400)
    | inr payload =>
        match AddWebhook state now payload with
        | Some state' => Some (state', httpOK "OK")
        | None => None
        end
    end.

Definition acknowledgeHandler : Handler := λ r now state,
  if negb (bool_decide (Method r = "POST"))
  then Some (state, httpError "Method not allowed" 405)
  else
    let alertID := QueryID r in
    if bool_decide (alertID = "")
    then Some (state, httpError "Missing 'id' parameter" 400)
    else Some (Acknowledge state alertID, httpOK "OK").

Definition clearHandler : Handler := λ r now state,
  if negb (bool_decide (Method r = "POST"))
  then Some (state, httpError "Method not allowed" 405)
  else
    let '(state', clearedCount) := ClearAcknowledgedAndResolved state in
    Some (state', httpOK ("Cleared " +:+ pretty clearedCount +:+ " alerts")).

(** ** auth.go *)

(** The functions of Go's [net] and [strings] packages that [auth.go] calls
    and that are not rendered here: an unparsable text is [None]. *)
Class NetLib := {
  IP : Type;
  IPNet : Type;
  ParseIP : string → option IP;
  ParseCIDR : string → option IPNet;
  IPNetContains : IPNet → IP → bool;
  IPEqual : IP → IP → bool;
  TrimSpace : string → string;
  SplitHostPort : string → option string
}.

(** The fields of [Config] that [authMiddleware] and [main] read. *)
Record Config := mkConfig {
  WebhookAPIKey : string;
  AllowedIPs : list string;
  RequireHTTPS : bool
}.

(** [strings.HasPrefix(s, prefix)] *)
Fixpoint HasPrefix (s prefix : string) {struct prefix} : bool :=
  match prefix with
  | EmptyString => true
  | String c prefix' =>
      match s with
      | EmptyString => false
      | String d s' => bool_decide (d = c) && HasPrefix s' prefix'
      end
  end.

(** [s[n:]] for [n <= len(s)] *)
Fixpoint sliceFrom (n : nat) (s : string) : string :=
  match n, s with
  | O, _ => s
  | S n', String _ s' => sliceFrom n' s'
  | S _, EmptyString => EmptyString
  end.

(** [strings.TrimPrefix(s, prefix)] *)
Definition TrimPrefix (s prefix : string) : string :=
  if HasPrefix s prefix then sliceFrom (String.length prefix) s else s.

(** [strings.Split(s, ",")[0]]: the text before the first comma. *)
Fixpoint firstField (s : string) : string :=
  match s with
  | EmptyString => EmptyString
  | String c s' =>
      if bool_decide (c = ","%char) then EmptyString else String c (firstField s')
  end.

(** [strings.Contains(s, "/")] *)
Fixpoint containsSlash (s : string) : bool :=
  match s with
  | EmptyString => false
  | String c s' => bool_decide (c = "/"%char) || containsSlash s'
  end.

Definition getClientIP `{NetLib} (r : Request) : string :=
  let forwarded := Header r "X-Forwarded-For" in
  let fromForwarded :=
    if negb (bool_decide (forwarded = "")) then
      let ip := TrimSpace (firstField forwarded) in
      if negb (bool_decide (ip = "")) then Some ip else None
    else None in
  match fromForwarded with
  | Some ip => ip
  | None =>
      let realIP := Header r "X-Real-IP" in
      if negb (bool_decide (realIP = "")) then realIP
      else
        match SplitHostPort (RemoteAddr r) with
        | Some ip => ip
        | None => RemoteAddr r
        end
  end.

(** The body of the loop of [isIPAllowed] for one entry of the list. *)
Definition entryAllows `{NetLib} (clientIPParsed : IP) (allowed : string) : bool :=
  let allowed := TrimSpace allowed in
  if containsSlash allowed then
    match ParseCIDR allowed with
    | Some ipNet => IPNetContains ipNet clientIPParsed
    | None => false
    end
  else
    match ParseIP allowed with
    | Some allowedIP => IPEqual allowedIP clientIPParsed
    | None => false
    end.

Definition isIPAllowed `{NetLib} (clientIP : string) (allowedIPs : list string)
  : bool :=
  match ParseIP clientIP with
  | None => false
  | Some clientIPParsed => existsb (entryAllows clientIPParsed) allowedIPs
  end.

(** The key a request presents: [apiKey] when [authMiddleware] compares
    it with the configured key. *)
Definition presentedKey (r : Request) : string :=
  let apiKey := Header r "X-API-Key" in
  if bool_decide (apiKey = "") then
    let authHeader := Header r "Authorization" in
    if HasPrefix authHeader "Bearer " then TrimPrefix authHeader "Bearer "
    else apiKey
  else apiKey.

Definition authMiddleware `{NetLib} (config : Config) (handler : Handler)
  : Handler := λ r now state,
  if negb (bool_decide (length (AllowedIPs config) = 0%nat))
     && negb (isIPAllowed (getClientIP r) (AllowedIPs config))
  then Some (state, httpError "Forbidden" 403)
  else if negb (bool_decide (WebhookAPIKey config = ""))
          && negb (bool_decide (presentedKey r = WebhookAPIKey config))
  then Some (state, httpError "Unauthorized" 401)
  else if RequireHTTPS config && negb (TLS r)
  then Some (state, httpError "HTTPS required" 400)
  else handler r now state.

(** ** main: the routes of the store *)

(** [webhookHandlerFunc] as [main] builds it. *)
Definition webhookRoute `{NetLib} (config : Config) : Handler :=
  if negb (bool_decide (WebhookAPIKey config = ""))
     || negb (bool_decide (length (AllowedIPs config) = 0%nat))
     || RequireHTTPS config
  then authMiddleware config webhookHandler
  else webhookHandler.

Inductive Route := RouteWebhook | RouteAcknowledge | RouteClear.

Definition serve `{NetLib} (config : Config) (route : Route) : Handler :=
  match route with
  | RouteWebhook => webhookRoute config
  | RouteAcknowledge => acknowledgeHandler
  | RouteClear => clearHandler
  end.

(** Requests served one after the other, each with the reading of the clock
    its handler would take. *)
Fixpoint serveAll `{NetLib} (config : Config)
    (requests : list (Route * Request * Time)) (state : AppState)
  : option (AppState * list Response) :=
  match requests with
  | [] => Some (state, [])
  | (route, r, now) :: rest =>
      match serve config route r now state with
      | Some (state', response) =>
          match serveAll config rest state' with
          | Some (final, responses) => Some (final, response :: responses)
          | None => None
          end
      | None => None
      end
  end.

(** A library for examples: addresses are compared as texts, nothing is a
    network, nothing is trimmed or split. *)
#[global] Instance textLib : NetLib := {|
  IP := string;
  IPNet := Empty_set;
  ParseIP := λ s, if bool_decide (s = "") then None else Some s;
  ParseCIDR := λ _, None;
  IPNetContains := λ _ _, false;
  IPEqual := λ x y, bool_decide (x = y);
  TrimSpace := λ s, s;
  SplitHostPort := λ _, None
|}.

Definition noHeaders : string → string := λ _, "".

Definition post (header : string → string) (id : string)
    (body : string + WebhookPayload) : Request :=
  {| Method := "POST"; Header := header; RemoteAddr := "192.0.2.1:4000";
     TLS := false; QueryID := id; Body := body |}.

(** The wall-clock readings the webhook requests of a list come with. *)
Definition webhookClocks (requests : list (Route * Request * Time)) : list Z :=
  concat (map (λ q, match q with
                    | (RouteWebhook, _, now) => [UnixNano now]
                    | _ => []
                    end) requests).

(** A configuration with a key only, and a request that presents it as a
    bearer token. *)
Definition keyOnly : Config :=
  {| WebhookAPIKey := "s3cret"; AllowedIPs := []; RequireHTTPS := false |}.

Definition bearerHeaders : string → string :=
  λ name, if bool_decide (name = "Authorization") then "Bearer s3cret" else "".

(** A configuration with a whitelist only, and a request that names a
    listed address in [X-Forwarded-For]. *)
Definition listOnly : Config :=
  {| WebhookAPIKey := ""; AllowedIPs := ["10.0.0.5"]; RequireHTTPS := false |}.


(** ** The hub of the live updates *)

(** A [*Client] is known by its identity; of a client the hub touches the
    [send] channel only: what is buffered in it, oldest first, and whether
    it is closed.  [serveWebSocket] makes it with room for 256 messages. *)
Record SendChan := mkSendChan {
  buffered : list string;
  isClosed : bool
}.

Definition sendCap : nat := 256.

(** [h.clients], and the [send] channel of every client; a client the hub
    has not met yet has the channel it was made with, open and empty. *)
Record Hub := mkHub {
  clients : gset nat;
  sends : gmap nat SendChan
}.

Definition sendOf (h : Hub) (client : nat) : SendChan :=
  default {| buffered := []; isClosed := false |} (sends h !! client).

Definition newHub : Hub := {| clients := ∅; sends := ∅ |}.

(** [for client := range h.clients { select { case client.send <- message:
    default: close(client.send); delete(h.clients, client) } }] over the
    clients still to visit.  A send on a closed channel panics; a send on an
    open channel goes through when the buffer has room (a receiver that
    waits has emptied it). *)
Fixpoint broadcastLoop (message : string) (toVisit : list nat) (h : Hub)
  : option Hub :=
  match toVisit with
  | [] => Some h
  | client :: rest =>
      let ch := sendOf h client in
      if isClosed ch then None
      else if bool_decide (length (buffered ch) < sendCap)%nat then
        broadcastLoop message rest
          {| clients := clients h;
             sends := <[client := {| buffered := buffered ch ++ [message];
                                     isClosed := false |}]> (sends h) |}
      else
        broadcastLoop message rest
          {| clients := clients h ∖ {[client]};
             sends := <[client := {| buffered := buffered ch;
                                     isClosed := true |}]> (sends h) |}
  end.

(** What the loop of [Hub.run] receives, and the one thing a client's
    [writePump] does to its channel: take the oldest message. *)
Inductive HubEvent :=
| EvRegister (client : nat)
| EvUnregister (client : nat)
| EvBroadcast (message : string)
| EvReceive (client : nat).

(** One turn of the [select] of [Hub.run]; [None] is a panic (closing a
    closed channel, sending on one). *)
Definition hubStep (h : Hub) (ev : HubEvent) : option Hub :=
  match ev with
  | EvRegister client =>
      Some {| clients := {[client]} ∪ clients h; sends := sends h |}
  | EvUnregister client =>
      if bool_decide (client ∈ clients h) then
        if isClosed (sendOf h client) then None
        else Some {| clients := clients h ∖ {[client]};
                     sends := <[client := {| buffered := buffered (sendOf h client);
                                             isClosed := true |}]> (sends h) |}
      else Some h
  | EvBroadcast message => broadcastLoop message (elements (clients h)) h
  | EvReceive client =>
      Some {| clients := clients h;
              sends := <[client := {| buffered := tail (buffered (sendOf h client));
                                      isClosed := isClosed (sendOf h client) |}]>
                         (sends h) |}
  end.

Fixpoint hubRun (h : Hub) (events : list HubEvent) : option Hub :=
  match events with
  | [] => Some h
  | ev :: rest =>
      match hubStep h ev with
      | Some h' => hubRun h' rest
      | None => None
      end
  end.

(** Whether a non-blocking send finds room, and the channel after the
    [select] of the broadcast met it open. *)
Definition hasRoom (ch : SendChan) : bool :=
  bool_decide (length (buffered ch) < sendCap)%nat.

Definition afterBroadcast (message : string) (ch : SendChan) : SendChan :=
  if hasRoom ch
  then {| buffered := buffered ch ++ [message]; isClosed := false |}
  else {| buffered := buffered ch; isClosed := true |}.

(** Two viewers connect. *)
Definition twoViewers : list HubEvent := [EvRegister 1%nat; EvRegister 2%nat].

(** A viewer connects, leaves, and the same client is registered again. *)
Definition registeredAgain : list HubEvent :=
  [EvRegister 1%nat; EvUnregister 1%nat; EvRegister 1%nat; EvBroadcast "update"].

(** The clients the events register, in order. *)
Definition registrations (events : list HubEvent) : list nat :=
  concat (map (λ ev, match ev with EvRegister client => [client] | _ => [] end)
            events).

(** The invariant of the hub: the registered clients are among those met,
    a closed channel belongs to a client that was met and is no longer
    registered, and no buffer exceeds its capacity. *)
Definition hubInv (met : gset nat) (h : Hub) : Prop :=
  clients h ⊆ met
  ∧ (∀ client, isClosed (sendOf h client) = true →
               client ∈ met ∧ client ∉ clients h)
  ∧ (∀ client, (length (buffered (sendOf h client)) ≤ sendCap)%nat).

(** * Properties *)

(** A closed run of the store is evaluated; what is left are statements
    about the state it reaches. *)
Ltac evaluates := eexists; split; [vm_compute; reflexivity|].

(** ** Facts about the match rule *)

Lemma labelsAllIn_subseteq (m m' : gmap string string) :
  labelsAllIn m m' = true ↔ m ⊆ m'.
Proof.
  unfold labelsAllIn. rewrite forallb_forall, map_subseteq_spec. split.
  - intros Hall k v Hk.
    specialize (Hall (k, v)). simpl in Hall.
    destruct (m' !! k) as [w|] eqn:Hw.
    + rewrite bool_decide_eq_true in Hall. f_equal. apply Hall.
      apply list_elem_of_In, elem_of_map_to_list. exact Hk.
    + discriminate Hall. apply list_elem_of_In, elem_of_map_to_list. exact Hk.
  - intros Hsub [k v] Hin. simpl.
    apply list_elem_of_In, elem_of_map_to_list in Hin.
    rewrite (Hsub k v Hin). by apply bool_decide_eq_true.
Qed.

Lemma alertsMatch_spec (R F : Alert) :
  alertsMatch R F = true ↔ Labels R = Labels F ∧ Labels R ≠ ∅.
Proof.
  unfold alertsMatch. split.
  - intros H.
    destruct (bool_decide (size (Labels R) = 0%nat)) eqn:HR; [done|].
    destruct (bool_decide (size (Labels F) = 0%nat)) eqn:HF; [done|].
    simpl in H.
    destruct (bool_decide (size (Labels R) = size (Labels F))); [|done].
    simpl in H.
    destruct (labelsAllIn (Labels R) (Labels F)) eqn:H1; [|done].
    destruct (labelsAllIn (Labels F) (Labels R)) eqn:H2; [|done].
    apply labelsAllIn_subseteq in H1, H2.
    apply bool_decide_eq_false in HR. split.
    + by apply (anti_symm (⊆)).
    + intros He. apply HR. by rewrite He, map_size_empty.
  - intros [Heq Hne]. rewrite <- Heq.
    assert (size (Labels R) ≠ 0%nat) as Hsz.
    { intros Hs. by apply map_size_empty_iff in Hs. }
    rewrite (bool_decide_eq_false_2 _ Hsz). simpl.
    rewrite (bool_decide_eq_true_2 _ eq_refl). simpl.
    assert (labelsAllIn (Labels R) (Labels R) = true) as ->
      by by apply labelsAllIn_subseteq.
    done.
Qed.

Lemma alertsMatch_true_eq (R F : Alert) :
  alertsMatch R F = true → Labels R = Labels F.
Proof. intros H. by apply alertsMatch_spec in H as [? _]. Qed.

Lemma alertsMatch_sym (R F : Alert) : alertsMatch R F = alertsMatch F R.
Proof.
  destruct (alertsMatch R F) eqn:H1, (alertsMatch F R) eqn:H2; try done.
  - apply alertsMatch_spec in H1 as [He Hn].
    assert (alertsMatch F R = true) as H3.
    { apply alertsMatch_spec. split; [done|]. by rewrite <- He. }
    congruence.
  - apply alertsMatch_spec in H2 as [He Hn].
    assert (alertsMatch R F = true) as H3.
    { apply alertsMatch_spec. split; [done|]. by rewrite <- He. }
    congruence.
Qed.

(** The match only looks at the label mappings. *)
Lemma alertsMatch_labels (R R' F F' : Alert) :
  Labels R = Labels R' → Labels F = Labels F' →
  alertsMatch R F = alertsMatch R' F'.
Proof. unfold alertsMatch. by intros -> ->. Qed.

Lemma alertsMatch_empty_r (R F : Alert) :
  Labels F = ∅ → alertsMatch R F = false.
Proof.
  intros HF. destruct (alertsMatch R F) eqn:H; [|done].
  apply alertsMatch_spec in H as [He Hn]. congruence.
Qed.

Lemma alertsMatch_empty_l (R F : Alert) :
  Labels R = ∅ → alertsMatch R F = false.
Proof. intros HR. rewrite alertsMatch_sym. by apply alertsMatch_empty_r. Qed.

(** C1. The match predicate holds for a resolved alert [R] and a firing
    alert [F] exactly when their label mappings are equal as finite maps and
    both are non-empty; it is symmetric, and an alert with an empty label
    mapping matches nothing, on either side. *)
Theorem alertsMatch_exact_symmetric :
  ∀ R F : Alert,
    (alertsMatch R F = true ↔
       Labels R = Labels F ∧ Labels R ≠ ∅ ∧ Labels F ≠ ∅)
    ∧ (alertsMatch R F = true ↔
       (∀ k : string, Labels R !! k = Labels F !! k)
       ∧ size (Labels R) ≠ 0%nat ∧ size (Labels F) ≠ 0%nat)
    ∧ alertsMatch R F = alertsMatch F R
    ∧ (Labels R = ∅ ∨ Labels F = ∅ → alertsMatch R F = false).
Proof.
  intros R F. split; [|split; [|split]].
  - rewrite alertsMatch_spec. split.
    + intros [He Hn]. split; [done|]. split; [done|]. by rewrite <- He.
    + intros (He & Hn & _). done.
  - rewrite alertsMatch_spec. split.
    + intros [He Hn]. split; [by rewrite He|].
      rewrite <- He. split; intros Hs; by apply map_size_empty_iff in Hs.
    + intros (He & Hn & _). split; [by apply map_eq|].
      intros Hs. apply Hn. by rewrite Hs, map_size_empty.
  - apply alertsMatch_sym.
  - intros [H|H]; [by apply alertsMatch_empty_l | by apply alertsMatch_empty_r].
Qed.

(** An alert without labels does not match [firingA]. *)
Lemma alertsMatch_witness :
  alertsMatch (labelled "resolved" ∅) firingA = false.
Proof.
  refine (proj2 (proj2 (proj2
            (alertsMatch_exact_symmetric (labelled "resolved" ∅) firingA))) _).
  left. reflexivity.
Defined.

(** ** The reconciliation loop *)

Lemma deleteIDs_cons (e : AlertEntry) (removed : list AlertEntry)
    (ack : gmap string bool) :
  deleteIDs ack (e :: removed) = deleteIDs (delete (ID e) ack) removed.
Proof. reflexivity. Qed.

Lemma lookup_deleteIDs (removed : list AlertEntry) (ack : gmap string bool)
    (id : string) :
  deleteIDs ack removed !! id
  = if bool_decide (id ∈ ID <$> removed) then None else ack !! id.
Proof.
  revert ack. induction removed as [|e removed IH]; intros ack.
  - rewrite bool_decide_eq_false_2; [done|]. apply not_elem_of_nil.
  - rewrite deleteIDs_cons, IH, fmap_cons.
    destruct (decide (id = ID e)) as [->|Hne].
    + rewrite lookup_delete_eq.
      rewrite (bool_decide_eq_true_2 (ID e ∈ ID e :: (ID <$> removed)));
        [|apply elem_of_cons; by left].
      by case_bool_decide.
    + rewrite lookup_delete_ne by done.
      rewrite (bool_decide_ext (id ∈ ID e :: (ID <$> removed)) (id ∈ ID <$> removed));
        [done|]. rewrite elem_of_cons. split; [intros [?|?]; done | by right].
Qed.

Lemma deleteIDs_subseteq (removed : list AlertEntry) (ack : gmap string bool) :
  deleteIDs ack removed ⊆ ack.
Proof.
  apply map_subseteq_spec. intros id b. rewrite lookup_deleteIDs.
  by case_bool_decide.
Qed.

Lemma removeStep_eq (resolved : list Alert) (f : list AlertEntry)
    (ack : gmap string bool) (m : list Alert) (e : AlertEntry) :
  removeStep resolved (f, ack, m) e
  = match matchingResolved resolved e with
    | None => (f ++ [e], ack, m)
    | Some r => (f, delete (ID e) ack, m ++ [r])
    end.
Proof. reflexivity. Qed.

Lemma removeLoop_spec (resolved : list Alert) (l f0 : list AlertEntry)
    (ack0 : gmap string bool) (m0 : list Alert) :
  foldl (removeStep resolved) (f0, ack0, m0) l
  = (f0 ++ filter (λ e, ¬ shouldRemove resolved e) l,
     deleteIDs ack0 (filter (λ e, shouldRemove resolved e) l),
     m0 ++ omap (matchingResolved resolved) l).
Proof.
  revert f0 ack0 m0. induction l as [|e l IH]; intros f0 ack0 m0.
  - simpl. by rewrite !app_nil_r.
  - cbn [foldl]. rewrite removeStep_eq, !filter_cons. cbn [omap list_omap].
    assert (shouldRemove resolved e
            = match matchingResolved resolved e with
              | Some _ => true
              | None => false
              end) as Hs
      by reflexivity.
    destruct (matchingResolved resolved e) as [r|] eqn:Hm.
    + rewrite IH. rewrite decide_False by (rewrite Hs; simpl; tauto).
      rewrite decide_True by (by rewrite Hs).
      by rewrite <- app_assoc.
    + rewrite IH. rewrite decide_True by (rewrite Hs; simpl; tauto).
      rewrite decide_False by (rewrite Hs; simpl; tauto).
      by rewrite <- app_assoc.
Qed.

Lemma shouldRemove_existsb (resolved : list Alert) (e : AlertEntry) :
  shouldRemove resolved e
  = isFiring (EAlert e) && existsb (λ r, alertsMatch r (EAlert e)) resolved.
Proof.
  unfold shouldRemove, matchingResolved.
  destruct (isFiring (EAlert e)); simpl; [|done].
  induction resolved as [|r resolved IH]; simpl; [done|].
  by destruct (alertsMatch r (EAlert e)).
Qed.

Lemma existsb_resolvedOf (f : Alert → bool) (notification : list Alert) :
  existsb f (resolvedOf notification)
  = existsb (λ r, isResolved r && f r) notification.
Proof.
  unfold resolvedOf. induction notification as [|r l IH]; [done|].
  rewrite filter_cons. simpl. destruct (decide (isResolved r)) as [Hr|Hr].
  - simpl. rewrite IH. by destruct (isResolved r).
  - rewrite IH. by destruct (isResolved r).
Qed.

Lemma resolvedOf_nil_iff (notification : list Alert) :
  resolvedOf notification = [] ↔ hasResolvedAlerts notification = false.
Proof.
  unfold resolvedOf, hasResolvedAlerts.
  induction notification as [|r l IH]; [done|].
  rewrite filter_cons. simpl. destruct (decide (isResolved r)) as [Hr|Hr].
  - destruct (isResolved r); [|done]. simpl. split; intros; discriminate.
  - destruct (isResolved r); [by destruct Hr|]. simpl. exact IH.
Qed.

Lemma filter_all {A} (P : A → Prop) `{!∀ x, Decision (P x)} (l : list A) :
  (∀ x, x ∈ l → P x) → filter P l = l.
Proof.
  induction l as [|x l IH]; intros Hall; [done|].
  rewrite filter_cons_True by (apply Hall; by left).
  f_equal. apply IH. intros y Hy. apply Hall. by right.
Qed.

Lemma filter_none {A} (P : A → Prop) `{!∀ x, Decision (P x)} (l : list A) :
  (∀ x, x ∈ l → ¬ P x) → filter P l = [].
Proof.
  induction l as [|x l IH]; intros Hall; [done|].
  rewrite filter_cons_False by (apply Hall; by left).
  apply IH. intros y Hy. apply Hall. by right.
Qed.

Lemma omap_none {A B} (f : A → option B) (l : list A) :
  (∀ x, x ∈ l → f x = None) → omap f l = [].
Proof.
  induction l as [|x l IH]; intros Hall; [done|].
  cbn [omap list_omap]. rewrite (Hall x) by (by left).
  apply IH. intros y Hy. apply Hall. by right.
Qed.

Lemma removeMatchingFiringAlerts_spec (a : AppState) (notification : list Alert) :
  removeMatchingFiringAlerts a notification
  = ({| alerts := filter (λ e, ¬ shouldRemove (resolvedOf notification) e) (alerts a);
        maxSize := maxSize a;
        acknowledged :=
          deleteIDs (acknowledged a)
            (filter (λ e, shouldRemove (resolvedOf notification) e) (alerts a)) |},
     omap (matchingResolved (resolvedOf notification)) (alerts a)).
Proof.
  unfold removeMatchingFiringAlerts. fold (resolvedOf notification).
  case_bool_decide as Hlen.
  - apply length_zero_iff_nil in Hlen. rewrite Hlen.
    assert (∀ e : AlertEntry, shouldRemove [] e = false) as Hno.
    { intros e. rewrite shouldRemove_existsb. by destruct (isFiring (EAlert e)). }
    rewrite filter_all by (intros e _; rewrite Hno; intros []).
    rewrite filter_none by (intros e _; rewrite Hno; intros []).
    rewrite omap_none.
    + by destruct a.
    + intros e _. unfold matchingResolved. by destruct (isFiring (EAlert e)).
  - rewrite removeLoop_spec. reflexivity.
Qed.

(** Reconciliation leaves the store alone when the notification carries no
    resolved alert, so the guard of [AddWebhook] can be read as always
    running it. *)
Lemma ingested_eq (a : AppState) (now : Time) (payload : WebhookPayload) :
  ingested a now payload
  = {| alerts :=
         addAlerts now (UnixNano now)
           (removeMatchingFiringAlerts a (Alerts payload)).2 0 (Alerts payload)
           (alerts (removeMatchingFiringAlerts a (Alerts payload)).1);
       maxSize := maxSize a;
       acknowledged := acknowledged (removeMatchingFiringAlerts a (Alerts payload)).1 |}.
Proof.
  unfold ingested.
  destruct (bool_decide (payloadStatus payload = "resolved")
            || hasResolvedAlerts (Alerts payload)) eqn:Hc.
  - rewrite removeMatchingFiringAlerts_spec. reflexivity.
  - apply orb_false_iff in Hc as [_ Hc]. apply resolvedOf_nil_iff in Hc.
    unfold removeMatchingFiringAlerts. fold (resolvedOf (Alerts payload)).
    rewrite Hc. reflexivity.
Qed.

(** ** The insertion loop and the cut *)

Lemma addAlerts_newEntries (t : Time) (b : Z) (m : list Alert) (rest : list Alert) :
  ∀ (i : nat) (stored : list AlertEntry),
    addAlerts t b m i rest stored = reverse (newEntries t b m i rest) ++ stored.
Proof.
  induction rest as [|alert rest IH]; intros i stored; [done|].
  cbn [addAlerts newEntries]. unfold accepted.
  destruct (isResolved alert && negb (existsb (λ x, alertsMatch alert x) m)).
  - simpl. apply IH.
  - simpl negb. cbv iota. rewrite IH, reverse_app, <- app_assoc. reflexivity.
Qed.

Lemma elem_of_newEntries (t : Time) (b : Z) (m : list Alert) (rest : list Alert) :
  ∀ (i : nat) (e : AlertEntry),
    e ∈ newEntries t b m i rest ↔
    ∃ (k : nat) (alert : Alert),
      rest !! k = Some alert ∧ accepted m alert = true
      ∧ e = {| ID := SprintfID b (i + k); Timestamp := t; EAlert := alert |}.
Proof.
  induction rest as [|alert rest IH]; intros i e.
  - simpl. split; [by intros ?%elem_of_nil|]. by intros (k & x & ? & _).
  - cbn [newEntries]. rewrite elem_of_app, IH. split.
    + intros [He|(k & x & Hk & Hacc & ->)].
      * destruct (accepted m alert) eqn:Hacc; [|by apply elem_of_nil in He].
        apply list_elem_of_singleton in He as ->.
        exists 0%nat, alert. by rewrite Nat.add_0_r.
      * exists (S k), x. repeat split; [done..|].
        by rewrite Nat.add_succ_r.
    + intros ([|k] & x & Hk & Hacc & ->).
      * left. simpl in Hk. injection Hk as ->. rewrite Hacc, Nat.add_0_r.
        by apply list_elem_of_singleton.
      * right. exists k, x. repeat split; [done..|].
        by rewrite Nat.add_succ_r.
Qed.

Lemma truncate_nonneg (a : AppState) :
  0 ≤ maxSize a →
  truncate a = Some {| alerts := take (Z.to_nat (maxSize a)) (alerts a);
                       maxSize := maxSize a;
                       acknowledged := acknowledged a |}.
Proof.
  intros Hm. unfold truncate. case_bool_decide as Hlen.
  - by rewrite bool_decide_eq_false_2 by lia.
  - rewrite take_ge by lia. by destruct a.
Qed.

Lemma truncate_negative (a : AppState) : maxSize a < 0 → truncate a = None.
Proof.
  intros Hm. unfold truncate.
  rewrite bool_decide_eq_true_2 by lia. by rewrite bool_decide_eq_true_2.
Qed.

Lemma truncate_fits (a : AppState) :
  Z.of_nat (length (alerts a)) ≤ maxSize a → truncate a = Some a.
Proof. intros Hm. unfold truncate. by rewrite bool_decide_eq_false_2 by lia. Qed.

Lemma truncate_Some (a a' : AppState) :
  truncate a = Some a' →
  0 ≤ maxSize a
  ∧ alerts a' = take (Z.to_nat (maxSize a)) (alerts a)
  ∧ maxSize a' = maxSize a
  ∧ acknowledged a' = acknowledged a.
Proof.
  intros H. destruct (decide (0 ≤ maxSize a)) as [Hm|Hm].
  - rewrite truncate_nonneg in H by done. by injection H as <-.
  - rewrite truncate_negative in H by lia. discriminate.
Qed.

Lemma maxSize_ingested (a : AppState) (now : Time) (payload : WebhookPayload) :
  maxSize (ingested a now payload) = maxSize a.
Proof. by rewrite ingested_eq. Qed.

Lemma alerts_ingested (a : AppState) (now : Time) (payload : WebhookPayload) :
  alerts (ingested a now payload)
  = reverse (newEntries now (UnixNano now)
               (omap (matchingResolved (resolvedOf (Alerts payload))) (alerts a))
               0 (Alerts payload))
    ++ filter (λ e, ¬ shouldRemove (resolvedOf (Alerts payload)) e) (alerts a).
Proof.
  rewrite ingested_eq, removeMatchingFiringAlerts_spec. cbn [alerts fst snd].
  apply addAlerts_newEntries.
Qed.

Lemma acknowledged_ingested (a : AppState) (now : Time) (payload : WebhookPayload) :
  acknowledged (ingested a now payload)
  = deleteIDs (acknowledged a)
      (filter (λ e, shouldRemove (resolvedOf (Alerts payload)) e) (alerts a)).
Proof. by rewrite ingested_eq, removeMatchingFiringAlerts_spec. Qed.

(** ** A firing alert followed by its resolution *)

Lemma ingest_first_firing (m : Z) (t : Time) (st : string) (f : Alert) :
  1 ≤ m → Status f = "firing" →
  AddWebhook (NewAppState m) t (mkPayload st [f])
  = Some {| alerts := [{| ID := SprintfID (UnixNano t) 0; Timestamp := t; EAlert := f |}];
            maxSize := m; acknowledged := ∅ |}.
Proof.
  intros Hm Hf. unfold AddWebhook.
  assert (isResolved f = false) as Hnr by (unfold isResolved; by rewrite Hf).
  assert (ingested (NewAppState m) t (mkPayload st [f])
          = {| alerts := [{| ID := SprintfID (UnixNano t) 0; Timestamp := t;
                             EAlert := f |}];
               maxSize := m; acknowledged := ∅ |}) as ->.
  { rewrite ingested_eq, removeMatchingFiringAlerts_spec.
    cbn [alerts acknowledged maxSize NewAppState Alerts fst snd].
    rewrite filter_nil. cbn [addAlerts omap list_omap]. by rewrite Hnr. }
  apply truncate_fits. simpl. lia.
Qed.

Lemma ingest_resolution (m : Z) (t1 t2 : Time) (st : string) (id : string)
    (f r : Alert) :
  1 ≤ m → Status f = "firing" → Status r = "resolved" →
  Labels r = Labels f → Labels f ≠ ∅ →
  AddWebhook {| alerts := [{| ID := id; Timestamp := t1; EAlert := f |}];
                maxSize := m; acknowledged := ∅ |} t2 (mkPayload st [r])
  = Some {| alerts := [{| ID := SprintfID (UnixNano t2) 0; Timestamp := t2; EAlert := r |}];
            maxSize := m; acknowledged := ∅ |}.
Proof.
  intros Hm Hf Hr HL Hne. unfold AddWebhook.
  assert (isResolved r = true) as Hres by (unfold isResolved; by rewrite Hr).
  assert (alertsMatch r f = true) as Hrf.
  { apply alertsMatch_spec. split; [done|]. by rewrite HL. }
  assert (alertsMatch r r = true) as Hrr.
  { apply alertsMatch_spec. split; [done|]. by rewrite HL. }
  set (e1 := {| ID := id; Timestamp := t1; EAlert := f |}).
  assert (resolvedOf [r] = [r]) as Hro.
  { unfold resolvedOf. rewrite filter_cons_True by (by rewrite Hres). done. }
  assert (matchingResolved [r] e1 = Some r) as Hmr.
  { unfold matchingResolved, isFiring. simpl. by rewrite Hf, Hrf. }
  assert (shouldRemove [r] e1 = true) as Hsr by (unfold shouldRemove; by rewrite Hmr).
  assert (ingested {| alerts := [e1]; maxSize := m; acknowledged := ∅ |} t2
            (mkPayload st [r])
          = {| alerts := [{| ID := SprintfID (UnixNano t2) 0; Timestamp := t2;
                             EAlert := r |}];
               maxSize := m; acknowledged := ∅ |}) as ->.
  { rewrite ingested_eq, removeMatchingFiringAlerts_spec.
    cbn [alerts acknowledged maxSize Alerts fst snd]. rewrite Hro.
    rewrite filter_cons_False by (rewrite Hsr; simpl; tauto).
    rewrite filter_cons_True by (by rewrite Hsr).
    rewrite !filter_nil. cbn [omap list_omap]. rewrite Hmr.
    cbn [addAlerts existsb]. rewrite Hres, Hrr. cbn [orb negb andb].
    unfold deleteIDs. cbn [foldl]. by rewrite delete_empty. }
  apply truncate_fits. simpl. lia.
Qed.

Lemma matchingResolved_Some (resolved : list Alert) (e : AlertEntry) (r : Alert) :
  matchingResolved resolved e = Some r →
  r ∈ resolved ∧ alertsMatch r (EAlert e) = true ∧ isFiring (EAlert e) = true.
Proof.
  unfold matchingResolved. destruct (isFiring (EAlert e)); [|done].
  intros [Hin Hm]%find_some. by rewrite list_elem_of_In.
Qed.

Lemma shouldRemove_true (resolved : list Alert) (e : AlertEntry) :
  shouldRemove resolved e = true ↔
  isFiring (EAlert e) = true ∧ ∃ r, r ∈ resolved ∧ alertsMatch r (EAlert e) = true.
Proof.
  rewrite shouldRemove_existsb, andb_true_iff, existsb_exists.
  setoid_rewrite list_elem_of_In. done.
Qed.

Lemma elem_of_resolvedOf (notification : list Alert) (r : Alert) :
  r ∈ resolvedOf notification ↔ isResolved r = true ∧ r ∈ notification.
Proof.
  unfold resolvedOf. rewrite list_elem_of_filter.
  by rewrite Is_true_true.
Qed.

Lemma elem_of_kept (resolved : list Alert) (l : list AlertEntry) (e : AlertEntry) :
  e ∈ filter (λ e, ¬ shouldRemove resolved e) l ↔
  shouldRemove resolved e = false ∧ e ∈ l.
Proof.
  rewrite list_elem_of_filter, Is_true_true.
  by destruct (shouldRemove resolved e); intuition.
Qed.

Lemma elem_of_removed (resolved : list Alert) (l : list AlertEntry) (e : AlertEntry) :
  e ∈ filter (λ e, shouldRemove resolved e) l ↔
  shouldRemove resolved e = true ∧ e ∈ l.
Proof. by rewrite list_elem_of_filter, Is_true_true. Qed.

(** An alert that matched is accepted by the insertion loop: the recorded
    alerts carry the labels of the entries they removed. *)
Lemma accepted_of_match (resolved : list Alert) (l : list AlertEntry)
    (r : Alert) (e : AlertEntry) :
  e ∈ l → shouldRemove resolved e = true → alertsMatch r (EAlert e) = true →
  accepted (omap (matchingResolved resolved) l) r = true.
Proof.
  intros He Hs Hm. unfold accepted.
  destruct (isResolved r); [|done]. simpl. apply negb_true_iff, negb_false_iff.
  apply existsb_exists.
  unfold shouldRemove in Hs.
  destruct (matchingResolved resolved e) as [r'|] eqn:Hr'; [|done].
  exists r'. split.
  - apply list_elem_of_In, list_elem_of_omap. by exists e.
  - apply matchingResolved_Some in Hr' as (_ & Hm' & _).
    apply alertsMatch_spec in Hm as [H1 H2], Hm' as [H3 H4].
    apply alertsMatch_spec. split; [congruence|done].
Qed.

(** C2 (amended). From an empty store of capacity at least one, a firing
    alert labelled [alertname=A] followed by a resolved alert with the same
    labels leaves exactly one entry, a new one that holds the resolved
    alert; the firing entry is gone, nothing is acknowledged and
    [HasUnacknowledgedAlerts] is [false] (it is [true] in between).  In
    general a resolved alert that matches a stored firing entry removes that
    entry, deletes its acknowledgement, and is itself inserted as a new
    entry. *)
Theorem firing_then_resolved_leaves_resolved_entry :
  (∀ (m : Z) (t1 t2 : Time) (st1 st2 : string) (f r : Alert),
     1 ≤ m →
     Status f = "firing" → Labels f = {["alertname" := "A"]} →
     Status r = "resolved" → Labels r = {["alertname" := "A"]} →
     ∃ s1 s2 : AppState,
       AddWebhook (NewAppState m) t1 (notify st1 [f]) = Some s1
       ∧ alerts s1 = [{| ID := SprintfID (UnixNano t1) 0; Timestamp := t1; EAlert := f |}]
       ∧ HasUnacknowledgedAlerts s1 = true
       ∧ AddWebhook s1 t2 (notify st2 [r]) = Some s2
       ∧ alerts s2 = [{| ID := SprintfID (UnixNano t2) 0; Timestamp := t2; EAlert := r |}]
       ∧ acknowledged s2 = ∅
       ∧ HasUnacknowledgedAlerts s2 = false)
  ∧ (∀ (a : AppState) (now : Time) (payload : WebhookPayload) (i : nat)
       (r : Alert) (e : AlertEntry),
       Alerts payload !! i = Some r → Status r = "resolved" →
       e ∈ alerts a → Status (EAlert e) = "firing" →
       alertsMatch r (EAlert e) = true →
       (e ∉ alerts (removeMatchingFiringAlerts a (Alerts payload)).1)
       ∧ acknowledged (ingested a now payload) !! ID e = None
       ∧ ({| ID := SprintfID (UnixNano now) i; Timestamp := now; EAlert := r |}
            ∈ alerts (ingested a now payload))).
Proof.
  split.
  - intros m t1 t2 st1 st2 f r Hm Hf HLf Hr HLr.
    eexists _, _. split; [by apply ingest_first_firing|].
    split; [done|]. split.
    { unfold HasUnacknowledgedAlerts, ackLookup, isFiring. simpl.
      by rewrite lookup_empty, Hf. }
    split.
    { apply ingest_resolution; try done; [congruence|]. by rewrite HLf. }
    split; [done|]. split; [done|].
    unfold HasUnacknowledgedAlerts, ackLookup, isFiring. simpl.
    by rewrite lookup_empty, Hr.
  - intros a now payload i r e Hi Hr He Hf Hm.
    assert (isResolved r = true) as Hres by (unfold isResolved; by rewrite Hr).
    assert (shouldRemove (resolvedOf (Alerts payload)) e = true) as Hs.
    { apply shouldRemove_true. split; [unfold isFiring; by rewrite Hf|].
      exists r. split; [|done]. apply elem_of_resolvedOf. split; [done|].
      by eapply list_elem_of_lookup_2. }
    split; [|split].
    + rewrite removeMatchingFiringAlerts_spec. cbn [fst alerts].
      rewrite elem_of_kept. intros [Hk _]. congruence.
    + rewrite acknowledged_ingested, lookup_deleteIDs.
      rewrite bool_decide_eq_true_2; [done|].
      apply list_elem_of_fmap_2. by apply elem_of_removed.
    + rewrite alerts_ingested. apply elem_of_app. left.
      apply elem_of_reverse, elem_of_newEntries.
      exists i, r. split; [done|]. split; [|done].
      by eapply accepted_of_match.
Qed.

(** The scenario of C2 at the capacity [main] uses: the store is not empty
    afterwards. *)
Lemma firing_then_resolved_store_not_empty :
  ∃ s : AppState,
    run fresh firingThenResolved = Some s
    ∧ alerts s = [{| ID := "2-0"; Timestamp := at_ 2; EAlert := resolvedA |}]
    ∧ alerts s ≠ []
    ∧ HasUnacknowledgedAlerts s = false.
Proof.
  evaluates. split; [reflexivity|].
  split; [discriminate|reflexivity].
Qed.

Lemma firing_then_resolved_witness :
  ∃ s1 s2 : AppState,
    AddWebhook (NewAppState 100) (at_ 1) (notify "firing" [firingA]) = Some s1
    ∧ alerts s1 = [{| ID := SprintfID (UnixNano (at_ 1)) 0; Timestamp := at_ 1;
                      EAlert := firingA |}]
    ∧ HasUnacknowledgedAlerts s1 = true
    ∧ AddWebhook s1 (at_ 2) (notify "resolved" [resolvedA]) = Some s2
    ∧ alerts s2 = [{| ID := SprintfID (UnixNano (at_ 2)) 0; Timestamp := at_ 2;
                      EAlert := resolvedA |}]
    ∧ acknowledged s2 = ∅
    ∧ HasUnacknowledgedAlerts s2 = false.
Proof.
  apply (proj1 firing_then_resolved_leaves_resolved_entry 100 (at_ 1) (at_ 2)
           "firing" "resolved" firingA resolvedA);
    [lia | reflexivity..].
Defined.

(** ** What reconciliation removes *)

Lemma find_first {A} (f : A → bool) (l : list A) (x : A) :
  List.find f l = Some x ↔
  ∃ k : nat, l !! k = Some x ∧ f x = true
             ∧ ∀ (j : nat) (y : A), (j < k)%nat → l !! j = Some y → f y = false.
Proof.
  induction l as [|y l IH]; simpl.
  - split; [done|]. by intros (k & ? & _).
  - destruct (f y) eqn:Hy.
    + split.
      * intros [= ->]. exists 0%nat. split; [done|]. split; [done|]. lia.
      * intros ([|k] & Hk & Hx & Hbefore).
        -- simpl in Hk. congruence.
        -- specialize (Hbefore 0%nat y). rewrite Hbefore in Hy; [done|lia|done].
    + rewrite IH. split.
      * intros (k & Hk & Hx & Hbefore). exists (S k).
        split; [done|]. split; [done|].
        intros [|j] z Hj Hz; simpl in Hz; [congruence|].
        apply (Hbefore j); [lia|done].
      * intros ([|k] & Hk & Hx & Hbefore); simpl in Hk; [congruence|].
        exists k. split; [done|]. split; [done|].
        intros j z Hj Hz. apply (Hbefore (S j)); [lia|done].
Qed.

Lemma length_kept_matched (resolved : list Alert) (l : list AlertEntry) :
  (length (omap (matchingResolved resolved) l)
   + length (filter (λ e, ¬ shouldRemove resolved e) l))%nat = length l.
Proof.
  induction l as [|e l IH]; [done|].
  rewrite filter_cons. cbn [omap list_omap].
  assert (shouldRemove resolved e
          = match matchingResolved resolved e with
            | Some _ => true
            | None => false
            end) as Hs by reflexivity.
  destruct (matchingResolved resolved e).
  - rewrite decide_False by (rewrite Hs; simpl; tauto). simpl. lia.
  - rewrite decide_True by (rewrite Hs; simpl; tauto). simpl. lia.
Qed.

(** C3 (amended). The reconciliation pass removes the stored firing entries
    that match at least one resolved alert of the notification, and only
    those; the other entries stay, in their order.  Each removed entry is
    attributed to one resolved alert, the first of the notification that
    matches it (first match wins), so there is one recorded alert per
    removed entry.  Nothing limits how many entries one resolved alert
    removes. *)
Theorem reconciliation_removes_every_matching_firing_entry :
  ∀ (a : AppState) (notification : list Alert),
    let resolved := resolvedOf notification in
    let result := removeMatchingFiringAlerts a notification in
    alerts result.1 = filter (λ e, ¬ shouldRemove resolved e) (alerts a)
    ∧ (∀ e : AlertEntry,
         shouldRemove resolved e = true ↔
         Status (EAlert e) = "firing"
         ∧ ∃ r : Alert, r ∈ notification ∧ Status r = "resolved"
                        ∧ alertsMatch r (EAlert e) = true)
    ∧ result.2 = omap (matchingResolved resolved) (alerts a)
    ∧ (∀ (e : AlertEntry) (r : Alert),
         matchingResolved resolved e = Some r ↔
         Status (EAlert e) = "firing"
         ∧ ∃ k : nat,
             resolved !! k = Some r ∧ alertsMatch r (EAlert e) = true
             ∧ ∀ (j : nat) (r' : Alert),
                 (j < k)%nat → resolved !! j = Some r' →
                 alertsMatch r' (EAlert e) = false)
    ∧ (length result.2 + length (alerts result.1))%nat = length (alerts a).
Proof.
  intros a notification resolved result. subst result.
  rewrite removeMatchingFiringAlerts_spec. cbn [fst snd alerts].
  split; [done|]. split; [|split; [done|split]].
  - intros e. rewrite shouldRemove_true. unfold isFiring.
    rewrite bool_decide_eq_true. apply and_iff_compat_l.
    split; intros (r & Hr & Hm); exists r.
    + apply elem_of_resolvedOf in Hr as [Hres Hin].
      apply bool_decide_eq_true in Hres. done.
    + destruct Hm as [Hres Hm]. split; [|done].
      apply elem_of_resolvedOf. split; [|done].
      by apply bool_decide_eq_true.
  - intros e r. unfold matchingResolved, isFiring.
    case_bool_decide as Hf.
    + rewrite find_first. by split; [intros ?; split | intros [_ ?]].
    + split; [done|]. by intros [? _].
  - apply length_kept_matched.
Qed.

(** One resolved alert removes both entries of an alert that was notified
    twice. *)
Lemma one_resolved_alert_removes_two_entries :
  ∃ s : AppState,
    run fresh twiceFiring = Some s
    ∧ ID <$> alerts s = ["2-0"; "1-0"]
    ∧ length (resolvedOf [resolvedA]) = 1%nat
    ∧ alerts (removeMatchingFiringAlerts s [resolvedA]).1 = []
    ∧ (removeMatchingFiringAlerts s [resolvedA]).2 = [resolvedA; resolvedA]
    ∧ (length (alerts s)
       - length (alerts (removeMatchingFiringAlerts s [resolvedA]).1))%nat = 2%nat.
Proof.
  evaluates.
  repeat split; vm_compute; reflexivity.
Qed.

(** ** A resolved alert that matches nothing *)

Lemma filter_ext_elem {A} (P Q : A → Prop)
    `{!∀ x, Decision (P x), !∀ x, Decision (Q x)} (l : list A) :
  (∀ x, x ∈ l → (P x ↔ Q x)) → filter P l = filter Q l.
Proof.
  induction l as [|x l IH]; intros Hext; [done|].
  rewrite !filter_cons.
  rewrite IH by (intros y Hy; apply Hext; by right).
  apply decide_ext, Hext. by left.
Qed.

Lemma omap_ext_elem {A B} (f g : A → option B) (l : list A) :
  (∀ x, x ∈ l → f x = g x) → omap f l = omap g l.
Proof.
  induction l as [|x l IH]; intros Hext; [done|].
  cbn [omap list_omap]. rewrite (Hext x) by (by left).
  rewrite IH by (intros y Hy; apply Hext; by right). done.
Qed.

Lemma removeMatchingFiringAlerts_ext (a : AppState) (n1 n2 : list Alert) :
  (∀ e, e ∈ alerts a →
        matchingResolved (resolvedOf n1) e = matchingResolved (resolvedOf n2) e) →
  removeMatchingFiringAlerts a n1 = removeMatchingFiringAlerts a n2.
Proof.
  intros Hext. rewrite !removeMatchingFiringAlerts_spec.
  assert (∀ e, e ∈ alerts a →
               shouldRemove (resolvedOf n1) e = shouldRemove (resolvedOf n2) e) as Hs.
  { intros e He. unfold shouldRemove. by rewrite Hext. }
  rewrite (filter_ext_elem (λ e, ¬ shouldRemove (resolvedOf n1) e)
             (λ e, ¬ shouldRemove (resolvedOf n2) e))
    by (intros e He; by rewrite Hs).
  rewrite (filter_ext_elem (λ e, Is_true (shouldRemove (resolvedOf n1) e))
             (λ e, Is_true (shouldRemove (resolvedOf n2) e)))
    by (intros e He; by rewrite Hs).
  by rewrite (omap_ext_elem _ _ _ Hext).
Qed.

Lemma find_skip {A} (f : A → bool) (l1 l2 : list A) (x : A) :
  f x = false → List.find f (l1 ++ x :: l2) = List.find f (l1 ++ l2).
Proof.
  intros Hx. induction l1 as [|y l1 IH]; simpl.
  - by rewrite Hx.
  - by rewrite IH.
Qed.

Lemma resolvedOf_app (l1 l2 : list Alert) :
  resolvedOf (l1 ++ l2) = resolvedOf l1 ++ resolvedOf l2.
Proof. apply filter_app. Qed.

Lemma resolvedOf_cons_resolved (r : Alert) (l : list Alert) :
  isResolved r = true → resolvedOf (r :: l) = r :: resolvedOf l.
Proof. intros Hr. unfold resolvedOf. by rewrite filter_cons_True by (by rewrite Hr). Qed.

Lemma addAlerts_app (t : Time) (b : Z) (m : list Alert) (l1 l2 : list Alert) :
  ∀ (i : nat) (stored : list AlertEntry),
    addAlerts t b m i (l1 ++ l2) stored
    = addAlerts t b m (i + length l1) l2 (addAlerts t b m i l1 stored).
Proof.
  induction l1 as [|x l1 IH]; intros i stored.
  - simpl. by rewrite Nat.add_0_r.
  - cbn [app addAlerts length]. rewrite Nat.add_succ_r.
    destruct (isResolved x && negb (existsb (λ y, alertsMatch x y) m));
      apply (IH (S i)).
Qed.

(** No recorded alert matches an alert that matches no stored firing entry. *)
Lemma unmatched_not_recorded (resolved : list Alert) (l : list AlertEntry)
    (r : Alert) :
  (∀ e, e ∈ l → Status (EAlert e) = "firing" → alertsMatch r (EAlert e) = false) →
  existsb (λ matchedAlert, alertsMatch r matchedAlert)
    (omap (matchingResolved resolved) l) = false.
Proof.
  intros Hno. apply not_true_is_false. intros Hex.
  apply existsb_exists in Hex as (r' & Hin & Hm).
  apply list_elem_of_In, list_elem_of_omap in Hin as (e & He & Hr').
  apply matchingResolved_Some in Hr' as (_ & Hm' & Hf).
  apply bool_decide_eq_true in Hf.
  specialize (Hno e He Hf).
  apply alertsMatch_spec in Hm as [H1 H2], Hm' as [H3 H4].
  assert (alertsMatch r (EAlert e) = true) as Hyes
    by (apply alertsMatch_spec; split; [congruence|done]).
  congruence.
Qed.

(** C4. A resolved alert that matches no stored firing entry is a silent
    no-op of the ingestion: reconciliation gives the same store, the same
    acknowledgements and the same recorded matches as for the notification
    without it; its iteration of the insertion loop creates no entry, so
    the store is what the other alerts of the notification make it; a
    notification that carries only this alert leaves the whole state as it
    was. *)
Theorem unmatched_resolved_alert_is_ignored
    (a : AppState) (now : Time) (st : string) (pre post : list Alert) (r : Alert) :
  Status r = "resolved" →
  (∀ e, e ∈ alerts a → Status (EAlert e) = "firing" →
        alertsMatch r (EAlert e) = false) →
  removeMatchingFiringAlerts a (pre ++ r :: post)
  = removeMatchingFiringAlerts a (pre ++ post)
  ∧ (let a' := (removeMatchingFiringAlerts a (pre ++ post)).1 in
     let matched := (removeMatchingFiringAlerts a (pre ++ post)).2 in
     ingested a now (notify st (pre ++ r :: post))
     = {| alerts :=
            addAlerts now (UnixNano now) matched (S (length pre)) post
              (addAlerts now (UnixNano now) matched 0 pre (alerts a'));
          maxSize := maxSize a;
          acknowledged := acknowledged a' |})
  ∧ (Z.of_nat (length (alerts a)) ≤ maxSize a →
     AddWebhook a now (notify st [r]) = Some a).
Proof.
  intros Hr Hno.
  assert (isResolved r = true) as Hres by (unfold isResolved; by rewrite Hr).
  assert (removeMatchingFiringAlerts a (pre ++ r :: post)
          = removeMatchingFiringAlerts a (pre ++ post)) as Hrm.
  { apply removeMatchingFiringAlerts_ext. intros e He.
    rewrite !resolvedOf_app, resolvedOf_cons_resolved by done.
    unfold matchingResolved, isFiring. case_bool_decide as Hf; [|done].
    apply find_skip. by apply Hno. }
  assert (∀ n, existsb (λ matchedAlert, alertsMatch r matchedAlert)
                 (removeMatchingFiringAlerts a n).2 = false) as Hrec.
  { intros n. rewrite removeMatchingFiringAlerts_spec. cbn [snd].
    by apply unmatched_not_recorded. }
  split; [done|]. split.
  - cbv zeta. rewrite ingested_eq. cbn [Alerts notify]. rewrite Hrm.
    f_equal. rewrite addAlerts_app. cbn [addAlerts].
    rewrite Hres, Hrec. cbn [negb andb Nat.add]. reflexivity.
  - intros Hlen. unfold AddWebhook.
    assert (ingested a now (notify st [r]) = a) as ->; [|by apply truncate_fits].
    rewrite ingested_eq. cbn [Alerts notify addAlerts].
    rewrite Hres, Hrec. cbn [negb andb].
    rewrite removeMatchingFiringAlerts_spec. cbn [fst alerts acknowledged].
    assert (∀ e, e ∈ alerts a → shouldRemove (resolvedOf [r]) e = false) as Hkeep.
    { intros e He. apply not_true_is_false. intros Hs.
      apply shouldRemove_true in Hs as (Hf & r' & Hin & Hm).
      apply bool_decide_eq_true in Hf.
      apply elem_of_resolvedOf in Hin as [_ Hin].
      apply list_elem_of_singleton in Hin as ->.
      rewrite (Hno e He Hf) in Hm. discriminate. }
    rewrite filter_all by (intros e He; rewrite (Hkeep e He); intros []).
    rewrite filter_none by (intros e He; rewrite (Hkeep e He); intros []).
    by destruct a.
Qed.

(** Two resolved alerts with the labels of one stored firing entry both
    match it, and both are inserted, although the inner loop records the
    removal for the first only. *)
Lemma repeated_resolved_alert_inserted_twice :
  ∃ s : AppState,
    AddWebhook {| alerts := [{| ID := "1-0"; Timestamp := at_ 1; EAlert := firingA |}];
                  maxSize := 100; acknowledged := ∅ |}
      (at_ 2) (notify "resolved" [resolvedA; resolvedA]) = Some s
    ∧ alerts s = [{| ID := "2-1"; Timestamp := at_ 2; EAlert := resolvedA |};
                  {| ID := "2-0"; Timestamp := at_ 2; EAlert := resolvedA |}].
Proof. evaluates. reflexivity. Qed.

(** A lone resolved alert ingested into the empty store leaves it empty. *)
Lemma unmatched_resolved_alert_witness :
  AddWebhook fresh (at_ 1) (notify "resolved" [resolvedB]) = Some fresh.
Proof.
  refine (proj2 (proj2 (unmatched_resolved_alert_is_ignored fresh (at_ 1)
                          "resolved" [] [] resolvedB _ _)) _).
  - reflexivity.
  - intros e He. by apply elem_of_nil in He.
  - simpl. lia.
Defined.

(** ** Clearing *)

Lemma clearLoop_clearFrom (l f0 : list AlertEntry) (ack0 : gmap string bool) (n0 : Z) :
  foldl clearStep (f0, ack0, n0) l
  = (f0 ++ (clearFrom ack0 l).1.1, (clearFrom ack0 l).1.2, n0 + (clearFrom ack0 l).2).
Proof.
  revert f0 ack0 n0. induction l as [|e l IH]; intros f0 ack0 n0.
  - simpl. by rewrite app_nil_r, Z.add_0_r.
  - cbn [foldl clearFrom]. unfold clearStep at 2.
    destruct (isFiring (EAlert e) && negb (ackLookup ack0 (ID e))).
    + rewrite IH. destruct (clearFrom ack0 l) as [[k a'] n]. simpl.
      by rewrite <- app_assoc.
    + rewrite IH. destruct (clearFrom (delete (ID e) ack0) l) as [[k a'] n].
      simpl. f_equal. lia.
Qed.

Lemma ClearAcknowledgedAndResolved_clearFrom (a : AppState) :
  ClearAcknowledgedAndResolved a
  = ({| alerts := (clearFrom (acknowledged a) (alerts a)).1.1;
        maxSize := maxSize a;
        acknowledged := (clearFrom (acknowledged a) (alerts a)).1.2 |},
     (clearFrom (acknowledged a) (alerts a)).2).
Proof.
  unfold ClearAcknowledgedAndResolved. rewrite clearLoop_clearFrom.
  by rewrite Z.add_0_l.
Qed.

Lemma ackLookup_subseteq (ack ack' : gmap string bool) (id : string) :
  ack' ⊆ ack → ackLookup ack id = false → ackLookup ack' id = false.
Proof.
  intros Hsub. unfold ackLookup.
  destruct (ack' !! id) as [b|] eqn:Hb; [|done].
  by rewrite (lookup_weaken _ _ _ _ Hb Hsub).
Qed.

Lemma clearFrom_subseteq (l : list AlertEntry) :
  ∀ ack, (clearFrom ack l).1.2 ⊆ ack.
Proof.
  induction l as [|e l IH]; intros ack; [done|].
  cbn [clearFrom].
  destruct (isFiring (EAlert e) && negb (ackLookup ack (ID e))).
  - specialize (IH ack). by destruct (clearFrom ack l) as [[k a'] n].
  - specialize (IH (delete (ID e) ack)).
    destruct (clearFrom (delete (ID e) ack) l) as [[k a'] n]. simpl in *.
    etrans; [exact IH|]. apply delete_subseteq.
Qed.

Lemma clearFrom_sublist (l : list AlertEntry) :
  ∀ ack, (clearFrom ack l).1.1 `sublist_of` l.
Proof.
  induction l as [|e l IH]; intros ack; [done|].
  cbn [clearFrom].
  destruct (isFiring (EAlert e) && negb (ackLookup ack (ID e))).
  - specialize (IH ack). destruct (clearFrom ack l) as [[k a'] n].
    by apply sublist_skip.
  - specialize (IH (delete (ID e) ack)).
    destruct (clearFrom (delete (ID e) ack) l) as [[k a'] n].
    by apply sublist_cons.
Qed.

Lemma clearFrom_count (l : list AlertEntry) :
  ∀ ack, (clearFrom ack l).2
         = Z.of_nat (length l) - Z.of_nat (length (clearFrom ack l).1.1).
Proof.
  induction l as [|e l IH]; intros ack; [done|].
  cbn [clearFrom].
  destruct (isFiring (EAlert e) && negb (ackLookup ack (ID e))).
  - specialize (IH ack). destruct (clearFrom ack l) as [[k a'] n].
    simpl in *. lia.
  - specialize (IH (delete (ID e) ack)).
    destruct (clearFrom (delete (ID e) ack) l) as [[k a'] n]. simpl in *. lia.
Qed.

Lemma ackLookup_delete (ack : gmap string bool) (id id' : string) :
  ackLookup ack id = false → ackLookup (delete id' ack) id = false.
Proof. apply ackLookup_subseteq, delete_subseteq. Qed.

(** Every entry that is firing and unacknowledged when the loop starts is
    kept. *)
Lemma clearFrom_keeps (l : list AlertEntry) :
  ∀ ack e, e ∈ l → unackFiring ack e = true → e ∈ (clearFrom ack l).1.1.
Proof.
  induction l as [|x l IH]; intros ack e He Hu; [by apply elem_of_nil in He|].
  cbn [clearFrom]. fold (unackFiring ack x).
  apply elem_of_cons in He as [->|He].
  - rewrite Hu. destruct (clearFrom ack l) as [[k a'] n]. by left.
  - destruct (unackFiring ack x).
    + specialize (IH ack e He Hu). destruct (clearFrom ack l) as [[k a'] n].
      by right.
    + apply (IH (delete (ID x) ack)) in He.
      * by destruct (clearFrom (delete (ID x) ack) l) as [[k a'] n].
      * unfold unackFiring in *. apply andb_true_iff in Hu as [-> Hu].
        apply negb_true_iff in Hu. simpl.
        by rewrite (ackLookup_delete _ _ _ Hu).
Qed.

(** Every kept entry is firing, and unacknowledged by the map the loop
    leaves. *)
Lemma clearFrom_kept (l : list AlertEntry) :
  ∀ ack e, e ∈ (clearFrom ack l).1.1 →
           e ∈ l ∧ unackFiring (clearFrom ack l).1.2 e = true.
Proof.
  induction l as [|x l IH]; intros ack e; [by intros ?%elem_of_nil|].
  cbn [clearFrom]. fold (unackFiring ack x).
  destruct (unackFiring ack x) eqn:Hx.
  - pose proof (clearFrom_subseteq l ack) as Hsub. specialize (IH ack e).
    destruct (clearFrom ack l) as [[k a'] n]. simpl in *.
    intros [->|He]%elem_of_cons.
    + split; [by left|]. unfold unackFiring in *.
      apply andb_true_iff in Hx as [-> Hx]. apply negb_true_iff in Hx.
      simpl. by rewrite (ackLookup_subseteq _ _ _ Hsub Hx).
    + destruct (IH He). split; [by right|done].
  - specialize (IH (delete (ID x) ack) e).
    destruct (clearFrom (delete (ID x) ack) l) as [[k a'] n]. simpl in *.
    intros He. destruct (IH He). split; [by right|done].
Qed.

(** The id of every entry the loop drops is absent from the map it
    leaves. *)
Lemma clearFrom_dropped (l : list AlertEntry) :
  ∀ ack e, e ∈ l → e ∉ (clearFrom ack l).1.1 →
           (clearFrom ack l).1.2 !! ID e = None.
Proof.
  induction l as [|x l IH]; intros ack e He; [by apply elem_of_nil in He|].
  cbn [clearFrom]. fold (unackFiring ack x).
  destruct (unackFiring ack x) eqn:Hx.
  - specialize (IH ack e). destruct (clearFrom ack l) as [[k a'] n]. simpl in *.
    intros Hnot. apply elem_of_cons in He as [->|He].
    + destruct Hnot. by left.
    + apply IH; [done|]. intros Hin. apply Hnot. by right.
  - pose proof (clearFrom_subseteq l (delete (ID x) ack)) as Hsub.
    specialize (IH (delete (ID x) ack) e).
    destruct (clearFrom (delete (ID x) ack) l) as [[k a'] n]. simpl in *.
    intros Hnot. apply elem_of_cons in He as [->|He]; [|by apply IH].
    destruct (a' !! ID x) as [b|] eqn:Hb; [|done].
    apply (lookup_weaken _ _ _ _ Hb) in Hsub.
    by rewrite lookup_delete_eq in Hsub.
Qed.

(** With pairwise distinct ids the deletions of the loop never concern a
    later entry, and the loop is a filter on the acknowledgements it
    started from. *)
Lemma clearFrom_distinct (l : list AlertEntry) :
  ∀ ack, NoDup (ID <$> l) →
         (clearFrom ack l).1.1 = filter (λ e, unackFiring ack e) l
         ∧ (clearFrom ack l).1.2
           = deleteIDs ack (filter (λ e, ¬ unackFiring ack e) l).
Proof.
  induction l as [|x l IH]; intros ack Hnd; [done|].
  rewrite fmap_cons in Hnd. apply NoDup_cons in Hnd as [Hx Hnd].
  cbn [clearFrom]. fold (unackFiring ack x). rewrite !filter_cons.
  destruct (unackFiring ack x) eqn:Hux.
  - rewrite decide_True by done. rewrite decide_False by (simpl; tauto).
    destruct (IH ack Hnd) as [IH1 IH2].
    destruct (clearFrom ack l) as [[k a'] n]. cbn [fst snd] in *. by rewrite IH1, IH2.
  - rewrite decide_False by (simpl; tauto). rewrite decide_True by (simpl; tauto).
    assert (∀ e, e ∈ l → unackFiring (delete (ID x) ack) e = unackFiring ack e)
      as Hsame.
    { intros e He. unfold unackFiring, ackLookup.
      rewrite lookup_delete_ne; [done|].
      intros Heq. apply Hx. rewrite Heq. by apply list_elem_of_fmap_2. }
    destruct (IH (delete (ID x) ack) Hnd) as [IH1 IH2].
    destruct (clearFrom (delete (ID x) ack) l) as [[k a'] n]. cbn [fst snd] in *.
    rewrite IH1, IH2, deleteIDs_cons. split.
    + apply filter_ext_elem. intros e He. by rewrite Hsame.
    + f_equal. apply filter_ext_elem. intros e He. by rewrite Hsame.
Qed.

(** C5 (amended). After [ClearAcknowledgedAndResolved] every entry that was
    firing and unacknowledged is still present; every retained entry was
    stored, is firing, and is unacknowledged in the new state; the id of
    every removed entry is absent from the acknowledgement set; the
    returned value is the number of entries removed.  When the stored ids
    are pairwise distinct the retained entries are exactly those that were
    firing and unacknowledged, in their order, and the acknowledgement set
    loses exactly the ids of the removed entries. *)
Theorem clear_keeps_unacknowledged_firing :
  ∀ a : AppState,
    let a' := (ClearAcknowledgedAndResolved a).1 in
    let cleared := (ClearAcknowledgedAndResolved a).2 in
    (∀ e, e ∈ alerts a → unackFiring (acknowledged a) e = true → e ∈ alerts a')
    ∧ (∀ e, e ∈ alerts a' →
            e ∈ alerts a ∧ Status (EAlert e) = "firing"
            ∧ ackLookup (acknowledged a') (ID e) = false)
    ∧ (∀ e, e ∈ alerts a → e ∉ alerts a' → acknowledged a' !! ID e = None)
    ∧ cleared = Z.of_nat (length (alerts a)) - Z.of_nat (length (alerts a'))
    ∧ (length (alerts a') ≤ length (alerts a))%nat
    ∧ maxSize a' = maxSize a
    ∧ (NoDup (ID <$> alerts a) →
       alerts a' = filter (λ e, unackFiring (acknowledged a) e) (alerts a)
       ∧ acknowledged a'
         = deleteIDs (acknowledged a)
             (filter (λ e, ¬ unackFiring (acknowledged a) e) (alerts a))).
Proof.
  intros a a' cleared. subst a' cleared.
  rewrite ClearAcknowledgedAndResolved_clearFrom.
  cbn [fst snd alerts acknowledged maxSize].
  split; [apply clearFrom_keeps|]. split.
  { intros e He. apply clearFrom_kept in He as [Hin Hu].
    unfold unackFiring in Hu. apply andb_true_iff in Hu as [Hf Hu].
    apply bool_decide_eq_true in Hf. apply negb_true_iff in Hu. done. }
  split; [apply clearFrom_dropped|].
  split; [apply clearFrom_count|].
  split; [apply sublist_length, clearFrom_sublist|].
  split; [done|]. apply clearFrom_distinct.
Qed.

(** After two ingestions at one clock instant, an entry that was
    acknowledged and firing survives the clearing: the resolved entry that
    shares its id was visited first and took the acknowledgement with it. *)
Lemma clear_retains_acknowledged_entry :
  ∃ (s : AppState) (e : AlertEntry),
    run fresh sameInstant = Some s
    ∧ ID <$> alerts s = ["2-0"; "2-0"]
    ∧ e = {| ID := "2-0"; Timestamp := {| wall := 2; mono := 2 |};
             EAlert := firingB |}
    ∧ Status (EAlert e) = "firing"
    ∧ ackLookup (acknowledged s) (ID e) = true
    ∧ alerts (ClearAcknowledgedAndResolved s).1 = [e]
    ∧ (ClearAcknowledgedAndResolved s).2 = 1.
Proof.
  eexists _, _. split; [vm_compute; reflexivity|].
  split; [reflexivity|]. split; [reflexivity|].
  repeat split; vm_compute; reflexivity.
Qed.

(** The store of [firingThenResolved] with an acknowledged firing entry
    added: clearing keeps nothing but the unacknowledged firing entry. *)
Lemma clear_keeps_unacknowledged_firing_witness :
  alerts (ClearAcknowledgedAndResolved
            {| alerts := [{| ID := "3-0"; Timestamp := at_ 3; EAlert := firingC |};
                          {| ID := "2-0"; Timestamp := at_ 2; EAlert := resolvedA |};
                          {| ID := "1-0"; Timestamp := at_ 1; EAlert := firingB |}];
               maxSize := 100;
               acknowledged := {["1-0" := true]} |}).1
  = filter (λ e, unackFiring {["1-0" := true]} e)
      [{| ID := "3-0"; Timestamp := at_ 3; EAlert := firingC |};
       {| ID := "2-0"; Timestamp := at_ 2; EAlert := resolvedA |};
       {| ID := "1-0"; Timestamp := at_ 1; EAlert := firingB |}].
Proof.
  refine (proj1 (proj2 (proj2 (proj2 (proj2 (proj2 (proj2
            (clear_keeps_unacknowledged_firing _)))))) _)).
  apply (bool_decide_unpack _). vm_compute. exact I.
Defined.

(** ** The capacity of the store *)

(** C6. With a capacity [maxSize >= 0] an ingestion always returns, and the
    store then holds at most [maxSize] entries: the first [maxSize] of the
    list that has the entries of this notification in front (the last alert
    of the notification first) and the surviving older entries behind them,
    so what is dropped is the tail, the oldest entries.  Three firing alerts
    ingested with [maxSize = 2], one by one or in one notification, leave
    the two ingested last. *)
Theorem ingest_keeps_newest_maxSize :
  (∀ (a : AppState) (now : Time) (payload : WebhookPayload),
     0 ≤ maxSize a →
     ∃ a' : AppState,
       AddWebhook a now payload = Some a'
       ∧ Z.of_nat (length (alerts a')) ≤ maxSize a
       ∧ maxSize a' = maxSize a
       ∧ alerts a' = take (Z.to_nat (maxSize a)) (alerts (ingested a now payload))
       ∧ alerts (ingested a now payload)
         = alerts a' ++ drop (Z.to_nat (maxSize a)) (alerts (ingested a now payload))
       ∧ alerts (ingested a now payload)
         = reverse (newEntries now (UnixNano now)
                      (removeMatchingFiringAlerts a (Alerts payload)).2
                      0 (Alerts payload))
           ++ alerts (removeMatchingFiringAlerts a (Alerts payload)).1)
  ∧ (∃ s : AppState,
       run (NewAppState 2) threeFiring = Some s
       ∧ alerts s = [{| ID := "3-0"; Timestamp := at_ 3; EAlert := firingC |};
                     {| ID := "2-0"; Timestamp := at_ 2; EAlert := firingB |}])
  ∧ (∃ s : AppState,
       AddWebhook (NewAppState 2) (at_ 1)
         (notify "firing" [firingA; firingB; firingC]) = Some s
       ∧ alerts s = [{| ID := "1-2"; Timestamp := at_ 1; EAlert := firingC |};
                     {| ID := "1-1"; Timestamp := at_ 1; EAlert := firingB |}]).
Proof.
  split; [|split].
  - intros a now payload Hm. unfold AddWebhook.
    eexists. split.
    { rewrite truncate_nonneg by (by rewrite maxSize_ingested).
      rewrite maxSize_ingested. reflexivity. }
    cbn [alerts maxSize]. split; [|split; [done|split; [done|split]]].
    + rewrite length_take. lia.
    + by rewrite take_drop.
    + rewrite alerts_ingested, removeMatchingFiringAlerts_spec. reflexivity.
  - evaluates. reflexivity.
  - evaluates. reflexivity.
Qed.

Lemma ingest_keeps_newest_maxSize_witness :
  ∃ a' : AppState,
    AddWebhook (NewAppState 2) (at_ 1) (notify "firing" [firingA; firingB; firingC])
    = Some a'
    ∧ Z.of_nat (length (alerts a')) ≤ 2.
Proof.
  destruct (proj1 ingest_keeps_newest_maxSize (NewAppState 2) (at_ 1)
              (notify "firing" [firingA; firingB; firingC]))
    as (a' & Hadd & Hlen & _); [simpl; lia|].
  exists a'. split; [exact Hadd|exact Hlen].
Defined.


(** ** Entries without labels *)

(** C10. A stored entry whose alert has no labels is never removed by the
    reconciliation pass: it is in the store reconciliation leaves and in
    the store as it stands before the cut, so after the ingestion it is
    still present unless it lies in the tail that the cut drops.
    Acknowledging does not remove it either. *)
Theorem unlabelled_entry_survives_reconciliation
    (a : AppState) (now : Time) (payload : WebhookPayload) (e : AlertEntry) :
  e ∈ alerts a → Labels (EAlert e) = ∅ →
  e ∈ alerts (removeMatchingFiringAlerts a (Alerts payload)).1
  ∧ e ∈ alerts (ingested a now payload)
  ∧ (∀ a' : AppState,
       AddWebhook a now payload = Some a' →
       e ∈ alerts a'
       ∨ (maxSize a < Z.of_nat (length (alerts (ingested a now payload)))
          ∧ e ∈ drop (Z.to_nat (maxSize a)) (alerts (ingested a now payload))))
  ∧ (∀ alertID : string, e ∈ alerts (Acknowledge a alertID)).
Proof.
  intros He HL.
  assert (shouldRemove (resolvedOf (Alerts payload)) e = false) as Hkeep.
  { apply not_true_is_false. intros Hs.
    apply shouldRemove_true in Hs as (_ & r & _ & Hm).
    by rewrite alertsMatch_empty_r in Hm. }
  assert (e ∈ alerts (removeMatchingFiringAlerts a (Alerts payload)).1) as H1.
  { rewrite removeMatchingFiringAlerts_spec. cbn [fst alerts].
    by apply elem_of_kept. }
  assert (e ∈ alerts (ingested a now payload)) as H2.
  { rewrite alerts_ingested. apply elem_of_app. right. by apply elem_of_kept. }
  split; [done|]. split; [done|]. split; [|done].
  intros a' Hadd. unfold AddWebhook in Hadd.
  apply truncate_Some in Hadd as (Hm & Hal & _ & _).
  rewrite maxSize_ingested in Hm, Hal. rewrite Hal.
  rewrite <- (take_drop (Z.to_nat (maxSize a)) (alerts (ingested a now payload)))
    in H2 at 1.
  apply elem_of_app in H2 as [H2|H2]; [by left|]. right. split; [|done].
  destruct (decide (maxSize a < Z.of_nat (length (alerts (ingested a now payload)))))
    as [|Hge]; [done|].
  rewrite drop_ge in H2 by lia. by apply elem_of_nil in H2.
Qed.

(** A resolved alert without labels does not remove the unlabelled firing
    entry. *)
Lemma unlabelled_entry_survives_witness :
  {| ID := "1-0"; Timestamp := at_ 1; EAlert := firingNoLabels |}
    ∈ alerts (ingested unlabelledStore (at_ 2)
                (notify "resolved" [labelled "resolved" ∅])).
Proof.
  refine (proj1 (proj2 (unlabelled_entry_survives_reconciliation unlabelledStore
                          (at_ 2) (notify "resolved" [labelled "resolved" ∅])
                          _ _ _))).
  - simpl. by left.
  - reflexivity.
Defined.

(** ** The acknowledgement set *)

Lemma removed_id_deleted (a : AppState) (notification : list Alert) (e : AlertEntry) :
  e ∈ alerts a →
  e ∉ alerts (removeMatchingFiringAlerts a notification).1 →
  acknowledged (removeMatchingFiringAlerts a notification).1 !! ID e = None.
Proof.
  rewrite removeMatchingFiringAlerts_spec. cbn [fst alerts acknowledged].
  intros He Hnot. rewrite lookup_deleteIDs.
  rewrite bool_decide_eq_true_2; [done|].
  apply list_elem_of_fmap_2, elem_of_removed. split; [|done].
  destruct (shouldRemove (resolvedOf notification) e) eqn:Hs; [done|].
  destruct Hnot. by apply elem_of_kept.
Qed.

Lemma acknowledged_AddWebhook (a a' : AppState) (now : Time)
    (payload : WebhookPayload) :
  AddWebhook a now payload = Some a' →
  acknowledged a' = acknowledged (removeMatchingFiringAlerts a (Alerts payload)).1.
Proof.
  unfold AddWebhook. intros (_ & _ & _ & ->)%truncate_Some.
  by rewrite ingested_eq.
Qed.

(** C8 (amended). An entry that the reconciliation pass or
    [ClearAcknowledgedAndResolved] removes has its id removed from the
    acknowledgement set, and neither an ingestion nor a clearing adds an id
    to the set: acknowledging an entry and then ingesting the resolved alert
    that matches it leaves no acknowledgement behind.  [Acknowledge] records
    the id it is given whether or not an entry with that id is stored. *)
Theorem removal_deletes_acknowledgement :
  (∀ (a : AppState) (notification : list Alert) (e : AlertEntry),
     e ∈ alerts a →
     e ∉ alerts (removeMatchingFiringAlerts a notification).1 →
     acknowledged (removeMatchingFiringAlerts a notification).1 !! ID e = None)
  ∧ (∀ (a a' : AppState) (now : Time) (payload : WebhookPayload),
       AddWebhook a now payload = Some a' →
       acknowledged a'
       = acknowledged (removeMatchingFiringAlerts a (Alerts payload)).1
       ∧ acknowledged a' ⊆ acknowledged a)
  ∧ (∀ (a : AppState) (e : AlertEntry),
       e ∈ alerts a →
       e ∉ alerts (ClearAcknowledgedAndResolved a).1 →
       acknowledged (ClearAcknowledgedAndResolved a).1 !! ID e = None)
  ∧ (∀ a : AppState,
       acknowledged (ClearAcknowledgedAndResolved a).1 ⊆ acknowledged a)
  ∧ (∀ (a : AppState) (alertID : string),
       acknowledged (Acknowledge a alertID) = <[alertID := true]> (acknowledged a)
       ∧ alerts (Acknowledge a alertID) = alerts a)
  ∧ (∃ s : AppState,
       run fresh acknowledgedThenResolved = Some s
       ∧ ID <$> alerts s = ["2-0"]
       ∧ acknowledged s = ∅).
Proof.
  split; [exact removed_id_deleted|]. split.
  { intros a a' now payload Hadd.
    rewrite (acknowledged_AddWebhook _ _ _ _ Hadd). split; [done|].
    rewrite removeMatchingFiringAlerts_spec. apply deleteIDs_subseteq. }
  split.
  { intros a e. rewrite ClearAcknowledgedAndResolved_clearFrom.
    apply clearFrom_dropped. }
  split.
  { intros a. rewrite ClearAcknowledgedAndResolved_clearFrom.
    apply clearFrom_subseteq. }
  split; [done|].
  evaluates. split; reflexivity.
Qed.

(** [Acknowledge] of an id that no entry carries leaves that id in the
    set. *)
Lemma acknowledge_unknown_id_dangles :
  ∃ s : AppState,
    run fresh [OpAcknowledge "no-such-entry"] = Some s
    ∧ alerts s = []
    ∧ acknowledged s !! "no-such-entry" = Some true.
Proof. eexists. split; [reflexivity|]. split; reflexivity. Qed.

Lemma removal_deletes_acknowledgement_witness :
  acknowledged
    (removeMatchingFiringAlerts
       {| alerts := [{| ID := "1-0"; Timestamp := at_ 1; EAlert := firingA |}];
          maxSize := 100;
          acknowledged := {["1-0" := true]} |} [resolvedA]).1
  !! "1-0" = None.
Proof.
  refine (proj1 removal_deletes_acknowledgement
            {| alerts := [{| ID := "1-0"; Timestamp := at_ 1; EAlert := firingA |}];
               maxSize := 100;
               acknowledged := {["1-0" := true]} |} [resolvedA]
            {| ID := "1-0"; Timestamp := at_ 1; EAlert := firingA |} _ _).
  - by left.
  - vm_compute. by intros ?%elem_of_nil.
Defined.

(** The cut of [AddWebhook] drops entries without touching the
    acknowledgement set: the id of an acknowledged entry that is pushed out
    stays behind. *)
Lemma eviction_keeps_acknowledgement :
  ∃ s : AppState,
    run (NewAppState 1) acknowledgedThenEvicted = Some s
    ∧ ID <$> alerts s = ["2-0"]
    ∧ acknowledged s !! "1-0" = Some true.
Proof. evaluates. split; reflexivity. Qed.

(** ** The display order *)

Lemma notAfter_spec (a : AppState) (x y : AlertEntry) :
  notAfter a x y ↔
  entryPriority a x ≤ entryPriority a y
  ∧ (entryPriority a x = entryPriority a y →
     mono (Timestamp y) ≤ mono (Timestamp x)).
Proof.
  unfold notAfter, less, After.
  case_bool_decide as Hp; simpl.
  - rewrite Hp, bool_decide_eq_false. lia.
  - rewrite bool_decide_eq_false. lia.
Qed.

#[global] Instance notAfter_total (a : AppState) : Total (notAfter a).
Proof. intros x y. rewrite !notAfter_spec. lia. Qed.

#[global] Instance notAfter_trans (a : AppState) : Transitive (notAfter a).
Proof. intros x y z. rewrite !notAfter_spec. lia. Qed.

Lemma StronglySorted_lookup {A} (R : relation A) (l : list A) :
  StronglySorted R l →
  ∀ (i j : nat) (x y : A),
    (i < j)%nat → l !! i = Some x → l !! j = Some y → R x y.
Proof.
  induction 1 as [|z l Hl IH Hz]; intros i j x y Hij Hi Hj.
  - by rewrite lookup_nil in Hi.
  - destruct j as [|j]; [lia|]. simpl in Hj. destruct i as [|i]; simpl in Hi.
    + injection Hi as ->. rewrite Forall_forall in Hz. apply Hz.
      by eapply list_elem_of_lookup_2.
    + apply (IH i j); [lia|done..].
Qed.

Lemma GetAlerts_sorted (a : AppState) (i j : nat) (x y : AlertEntry) :
  (i < j)%nat → GetAlerts a !! i = Some x → GetAlerts a !! j = Some y →
  notAfter a x y.
Proof.
  apply StronglySorted_lookup. unfold GetAlerts.
  apply StronglySorted_merge_sort; apply _.
Qed.

Lemma getAlertPriority_cases (status : string) (ack : bool) :
  getAlertPriority status ack
  = if bool_decide (status = "firing") then (if ack then 1 else 0) else 2.
Proof. unfold getAlertPriority. by case_bool_decide; destruct ack. Qed.

(** C9. [GetAlerts] returns the stored entries, rearranged so that the
    priorities (0 unacknowledged firing, 1 acknowledged firing, 2 anything
    else, that is resolved) never decrease along the list and, among entries
    of one priority, no entry comes after one that is older than it: an
    entry of a lower band stands before every entry of a higher band, and
    within a band an entry stands before every strictly older one. *)
Theorem GetAlerts_by_priority_then_newest :
  ∀ a : AppState,
    GetAlerts a ≡ₚ alerts a
    ∧ (∀ e : AlertEntry,
         entryPriority a e
         = if bool_decide (Status (EAlert e) = "firing")
           then (if ackLookup (acknowledged a) (ID e) then 1 else 0)
           else 2)
    ∧ (∀ (i j : nat) (x y : AlertEntry),
         (i < j)%nat → GetAlerts a !! i = Some x → GetAlerts a !! j = Some y →
         entryPriority a x ≤ entryPriority a y
         ∧ (entryPriority a x = entryPriority a y →
            After (Timestamp y) (Timestamp x) = false))
    ∧ (∀ (i j : nat) (x y : AlertEntry),
         GetAlerts a !! i = Some x → GetAlerts a !! j = Some y →
         entryPriority a x < entryPriority a y → (i < j)%nat)
    ∧ (∀ (i j : nat) (x y : AlertEntry),
         GetAlerts a !! i = Some x → GetAlerts a !! j = Some y →
         entryPriority a x = entryPriority a y →
         After (Timestamp x) (Timestamp y) = true → (i < j)%nat).
Proof.
  intros a. split; [apply merge_sort_Permutation|].
  split; [intros e; apply getAlertPriority_cases|].
  assert (∀ (i j : nat) (x y : AlertEntry),
            (i < j)%nat → GetAlerts a !! i = Some x → GetAlerts a !! j = Some y →
            entryPriority a x ≤ entryPriority a y
            ∧ (entryPriority a x = entryPriority a y →
               mono (Timestamp y) ≤ mono (Timestamp x))) as Hsorted.
  { intros i j x y Hij Hi Hj. apply notAfter_spec. by eapply GetAlerts_sorted. }
  split; [|split].
  - intros i j x y Hij Hi Hj. destruct (Hsorted i j x y Hij Hi Hj) as [H1 H2].
    split; [done|]. intros Heq. unfold After. apply bool_decide_eq_false.
    specialize (H2 Heq). lia.
  - intros i j x y Hi Hj Hlt.
    destruct (decide (i < j)%nat) as [|Hge]; [done|]. exfalso.
    destruct (decide (i = j)) as [->|Hne].
    + rewrite Hi in Hj. injection Hj as ->. lia.
    + destruct (Hsorted j i y x) as [H1 _]; [lia|done..|lia].
  - intros i j x y Hi Hj Heq Hnewer.
    apply bool_decide_eq_true in Hnewer.
    destruct (decide (i < j)%nat) as [|Hge]; [done|]. exfalso.
    destruct (decide (i = j)) as [->|Hne].
    + rewrite Hi in Hj. injection Hj as ->. lia.
    + destruct (Hsorted j i y x) as [_ H2]; [lia|done..|].
      specialize (H2 (eq_sym Heq)). lia.
Qed.

(** In the snapshot of [mixedStore] the acknowledged firing entry, the
    oldest of the three, stands before the resolved one. *)
Lemma GetAlerts_by_priority_witness :
  GetAlerts mixedStore !! 1%nat
    = Some {| ID := "1-0"; Timestamp := at_ 1; EAlert := firingB |}
  ∧ GetAlerts mixedStore !! 2%nat
    = Some {| ID := "2-0"; Timestamp := at_ 2; EAlert := resolvedA |}
  ∧ entryPriority mixedStore {| ID := "1-0"; Timestamp := at_ 1; EAlert := firingB |}
    ≤ entryPriority mixedStore {| ID := "2-0"; Timestamp := at_ 2; EAlert := resolvedA |}.
Proof.
  split; [vm_compute; reflexivity|]. split; [vm_compute; reflexivity|].
  refine (proj1 (proj1 (proj2 (proj2 (GetAlerts_by_priority_then_newest mixedStore)))
                   1%nat 2%nat _ _ _ _ _)).
  - lia.
  - vm_compute; reflexivity.
  - vm_compute; reflexivity.
Defined.

(** ** Entry ids *)

Lemma pretty_N_char_not_dash (x : N) : pretty_N_char x ≠ "-"%char.
Proof. unfold pretty_N_char. by repeat case_match. Qed.

Lemma pretty_N_go_noDash (x : N) :
  ∀ s, hasDash s = false → hasDash (pretty_N_go x s) = false.
Proof.
  induction (N.lt_wf_0 x) as [x _ IH]; intros s Hs.
  assert (x = 0 ∨ 0 < x)%N as [->|Hpos] by lia.
  - by rewrite pretty_N_go_0.
  - rewrite pretty_N_go_step by done. apply IH.
    + by apply N.div_lt.
    + cbn [hasDash]. rewrite Hs.
      by rewrite bool_decide_eq_false_2 by apply pretty_N_char_not_dash.
Qed.

Lemma pretty_N_noDash (x : N) : hasDash (pretty x) = false.
Proof.
  unfold pretty, pretty_N. case_decide; [done|]. by apply pretty_N_go_noDash.
Qed.

Lemma pretty_index_noDash (i : nat) : hasDash (pretty (Z.of_nat i)) = false.
Proof.
  destruct (Z.of_nat i) as [|p|p] eqn:Hi; [done| |lia].
  apply (pretty_N_noDash (N.pos p)).
Qed.

Lemma append_String (c : ascii) (a b : string) :
  String c a +:+ b = String c (a +:+ b).
Proof. reflexivity. Qed.

Lemma hasDash_append_dash (a b : string) : hasDash (a +:+ "-" +:+ b) = true.
Proof.
  induction a as [|c a IH]; [done|].
  rewrite append_String. cbn [hasDash]. rewrite IH. apply orb_true_r.
Qed.

Lemma append_dash_inj (a1 a2 b1 b2 : string) :
  hasDash b1 = false → hasDash b2 = false →
  a1 +:+ "-" +:+ b1 = a2 +:+ "-" +:+ b2 → a1 = a2 ∧ b1 = b2.
Proof.
  intros H1 H2. revert a2.
  induction a1 as [|c a1 IH]; intros [|c' a2] Heq.
  - change (String "-" b1 = String "-" b2) in Heq. by injection Heq.
  - rewrite append_String in Heq.
    change (String "-" b1 = String c' (a2 +:+ "-" +:+ b2)) in Heq.
    injection Heq as _ Heq.
    rewrite Heq, hasDash_append_dash in H1. discriminate.
  - rewrite append_String in Heq.
    change (String c (a1 +:+ "-" +:+ b1) = String "-" b2) in Heq.
    injection Heq as _ Heq.
    rewrite <- Heq, hasDash_append_dash in H2. discriminate.
  - rewrite !append_String in Heq. injection Heq as -> Heq.
    destruct (IH _ Heq) as [-> ->]. done.
Qed.

Lemma SprintfID_inj (b b' : Z) (i i' : nat) :
  SprintfID b i = SprintfID b' i' → b = b' ∧ i = i'.
Proof.
  unfold SprintfID. intros Heq.
  apply append_dash_inj in Heq as [Hb Hi]; [|apply pretty_index_noDash..].
  apply (inj pretty) in Hb, Hi. split; [done|lia].
Qed.

Lemma idsFrom_sublist (clocks : list Z) (a a' : AppState) :
  alerts a' `sublist_of` alerts a → idsFrom clocks a → idsFrom clocks a'.
Proof.
  intros Hsub [Hnd Hids]. split.
  - apply (sublist_NoDup _ (ID <$> alerts a)); [exact Hnd|by apply fmap_sublist].
  - intros e He. apply Hids. by apply (sublist_subseteq _ _ Hsub).
Qed.

Lemma idsFrom_mono (clocks clocks' : list Z) (a : AppState) :
  clocks ⊆ clocks' → idsFrom clocks a → idsFrom clocks' a.
Proof.
  intros Hsub [Hnd Hids]. split; [done|].
  intros e He. destruct (Hids e He) as (b & i & Hb & Hid).
  exists b, i. split; [by apply Hsub|done].
Qed.

Lemma NoDup_newEntries_ids (t : Time) (b : Z) (m : list Alert) (rest : list Alert) :
  ∀ i : nat, NoDup (ID <$> newEntries t b m i rest).
Proof.
  induction rest as [|alert rest IH]; intros i; [constructor|].
  cbn [newEntries]. destruct (accepted m alert); [|apply IH].
  cbn [app fmap list_fmap]. apply NoDup_cons. split; [|apply IH].
  intros Hin. apply list_elem_of_fmap in Hin as (e & Hid & He).
  apply elem_of_newEntries in He as (k & x & _ & _ & ->).
  cbn [ID] in Hid. apply SprintfID_inj in Hid as [_ Hid]. lia.
Qed.

Lemma idsFrom_ingested (clocks : list Z) (a : AppState) (now : Time)
    (payload : WebhookPayload) :
  UnixNano now ∉ clocks → idsFrom clocks a →
  idsFrom (UnixNano now :: clocks) (ingested a now payload).
Proof.
  intros Hnew [Hnd Hids]. unfold idsFrom. rewrite alerts_ingested.
  set (new := newEntries _ _ _ _ _).
  set (kept := filter _ (alerts a)).
  assert (kept `sublist_of` alerts a) as Hsub by apply sublist_filter.
  assert (∀ e, e ∈ new → ∃ i, ID e = SprintfID (UnixNano now) i) as Hnewid.
  { intros e (k & x & _ & _ & ->)%elem_of_newEntries. by eexists. }
  split.
  - rewrite fmap_app, fmap_reverse, reverse_Permutation.
    apply NoDup_app. split; [|split].
    + apply NoDup_newEntries_ids.
    + intros id Hin Hin'.
      apply list_elem_of_fmap in Hin as (e & -> & He).
      apply list_elem_of_fmap in Hin' as (e' & Heq & He').
      destruct (Hnewid e He) as (i & Hi).
      destruct (Hids e') as (b' & i' & Hb' & Hi');
        [by apply (sublist_subseteq _ _ Hsub)|].
      rewrite Hi, Hi' in Heq. apply SprintfID_inj in Heq as [Heq _].
      apply Hnew. by rewrite Heq.
    + apply (sublist_NoDup _ (ID <$> alerts a)); [exact Hnd|by apply fmap_sublist].
  - intros e [He|He]%elem_of_app.
    + rewrite elem_of_reverse in He. destruct (Hnewid e He) as (i & Hi).
      exists (UnixNano now), i. split; [by left|done].
    + destruct (Hids e) as (b & i & Hb & Hi);
        [by apply (sublist_subseteq _ _ Hsub)|].
      exists b, i. split; [by right|done].
Qed.

Lemma idsFrom_step (clocks : list Z) (a a' : AppState) (op : Op) :
  (∀ c, c ∈ ingestClock op → c ∉ clocks) → idsFrom clocks a →
  step a op = Some a' → idsFrom (ingestClock op ++ clocks) a'.
Proof.
  intros Hfresh Hinv. destruct op as [now payload|alertID|]; cbn [step ingestClock app].
  - unfold AddWebhook. intros (_ & Hal & _ & _)%truncate_Some.
    apply (idsFrom_sublist _ (ingested a now payload)).
    + rewrite Hal. apply sublist_take.
    + apply idsFrom_ingested; [|done]. apply Hfresh. by left.
  - by intros [= <-].
  - intros [= <-]. apply (idsFrom_sublist _ a); [|done].
    rewrite ClearAcknowledgedAndResolved_clearFrom. apply clearFrom_sublist.
Qed.

Lemma idsFrom_run (ops : list Op) :
  ∀ (clocks : list Z) (a a' : AppState),
    NoDup (ingestClocks ops) →
    (∀ c, c ∈ ingestClocks ops → c ∉ clocks) →
    idsFrom clocks a → run a ops = Some a' →
    idsFrom (ingestClocks ops ++ clocks) a'.
Proof.
  induction ops as [|op ops IH]; intros clocks a a' Hnd Hfresh Hinv Hrun.
  - by injection Hrun as <-.
  - cbn [run] in Hrun. destruct (step a op) as [a1|] eqn:Hstep; [|done].
    unfold ingestClocks in *. cbn [map concat] in *.
    apply NoDup_app in Hnd as (Hnd1 & Hdisj & Hnd2).
    apply (idsFrom_step clocks) in Hstep; [|intros c Hc; apply Hfresh, elem_of_app; by left|done].
    apply (IH _ _ a') in Hstep; [|done| |done].
    + eapply idsFrom_mono; [|exact Hstep].
      intros c. rewrite !elem_of_app. tauto.
    + intros c Hc [Hin|Hin]%elem_of_app.
      * by apply (Hdisj c).
      * apply (Hfresh c); [|done]. apply elem_of_app. by right.
Qed.

Lemma maxSize_step (a a' : AppState) (op : Op) :
  step a op = Some a' → maxSize a' = maxSize a.
Proof.
  destruct op as [now payload|alertID|]; cbn [step].
  - unfold AddWebhook. intros (_ & _ & -> & _)%truncate_Some.
    apply maxSize_ingested.
  - by intros [= <-].
  - intros [= <-]. by rewrite ClearAcknowledgedAndResolved_clearFrom.
Qed.

(** With a capacity that is not negative no operation panics. *)
Lemma run_total (ops : list Op) :
  ∀ a : AppState, 0 ≤ maxSize a → ∃ a', run a ops = Some a'.
Proof.
  induction ops as [|op ops IH]; intros a Hm; [by eexists|].
  cbn [run].
  assert (∃ a1, step a op = Some a1) as [a1 Hstep].
  { destruct op as [now payload|alertID|]; cbn [step]; [|by eexists..].
    unfold AddWebhook. rewrite truncate_nonneg by (by rewrite maxSize_ingested).
    by eexists. }
  rewrite Hstep. apply IH. by rewrite (maxSize_step _ _ _ Hstep).
Qed.

(** C7 (amended). In a run of ingestions, acknowledgements and clearings
    from the empty store in which no two ingestions read the same
    wall-clock instant, the operations all return and the retained entries
    have pairwise distinct ids. *)
Theorem ids_distinct_when_clock_readings_differ
    (m : Z) (ops : list Op) :
  0 ≤ m → NoDup (ingestClocks ops) →
  ∃ a : AppState,
    run (NewAppState m) ops = Some a
    ∧ NoDup (ID <$> alerts a)
    ∧ ∀ (i j : nat) (x y : AlertEntry),
        alerts a !! i = Some x → alerts a !! j = Some y → ID x = ID y → i = j.
Proof.
  intros Hm Hnd. destruct (run_total ops (NewAppState m) Hm) as [a Hrun].
  exists a. split; [done|].
  assert (NoDup (ID <$> alerts a)) as Hids.
  { eapply (idsFrom_run ops [] (NewAppState m) a); [done| | |done].
    - intros c _. apply not_elem_of_nil.
    - split; [constructor|]. by intros e ?%elem_of_nil. }
  split; [done|]. intros i j x y Hi Hj Heq.
  apply (NoDup_lookup (ID <$> alerts a) i j (ID x)); [done|..].
  - by rewrite list_lookup_fmap, Hi.
  - by rewrite list_lookup_fmap, Hj, Heq.
Qed.

(** Two ingestions at one wall-clock instant give two entries one id. *)
Lemma same_clock_reading_repeats_id :
  ∃ s : AppState,
    run fresh sameClockTwice = Some s
    ∧ alerts s = [{| ID := "1-0"; Timestamp := {| wall := 1; mono := 2 |};
                     EAlert := firingB |};
                  {| ID := "1-0"; Timestamp := {| wall := 1; mono := 1 |};
                     EAlert := firingA |}]
    ∧ ¬ NoDup (ID <$> alerts s).
Proof.
  evaluates. split; [reflexivity|].
  cbn [alerts fmap list_fmap ID]. intros Hnd.
  apply NoDup_cons in Hnd as [Hnot _]. apply Hnot. by left.
Qed.

Lemma ids_distinct_witness :
  ∃ a : AppState,
    run (NewAppState 2) threeFiring = Some a
    ∧ NoDup (ID <$> alerts a)
    ∧ ∀ (i j : nat) (x y : AlertEntry),
        alerts a !! i = Some x → alerts a !! j = Some y → ID x = ID y → i = j.
Proof.
  apply (ids_distinct_when_clock_readings_differ 2 threeFiring); [lia|].
  apply (bool_decide_unpack _). vm_compute. exact I.
Defined.

(** * Further properties of the store *)

(** ** The alarm condition *)

Lemma HasUnacknowledgedAlerts_spec (a : AppState) :
  HasUnacknowledgedAlerts a = true ↔
  ∃ e, e ∈ alerts a ∧ unackFiring (acknowledged a) e = true.
Proof.
  unfold HasUnacknowledgedAlerts, unackFiring. rewrite existsb_exists.
  setoid_rewrite list_elem_of_In.
  split; intros (e & He & Hu); exists e; (split; [done|]).
  - destruct (ackLookup (acknowledged a) (ID e)); [done|]. by rewrite Hu.
  - apply andb_true_iff in Hu as [Hf Hu]. apply negb_true_iff in Hu.
    by rewrite Hu.
Qed.

Lemma HasUnacknowledgedAlerts_false (a : AppState) :
  HasUnacknowledgedAlerts a = false ↔
  ∀ e, e ∈ alerts a → unackFiring (acknowledged a) e = false.
Proof.
  split.
  - intros Hno e He. apply not_true_is_false. intros Hu.
    assert (HasUnacknowledgedAlerts a = true) as Hyes
      by (apply HasUnacknowledgedAlerts_spec; by exists e).
    congruence.
  - intros Hall. apply not_true_is_false.
    intros (e & He & Hu)%HasUnacknowledgedAlerts_spec.
    rewrite (Hall e He) in Hu. discriminate.
Qed.

(** ** Capacity along a run *)

Lemma step_within_capacity (a a' : AppState) (op : Op) :
  Z.of_nat (length (alerts a)) ≤ maxSize a → step a op = Some a' →
  maxSize a' = maxSize a ∧ Z.of_nat (length (alerts a')) ≤ maxSize a.
Proof.
  intros Hlen Hstep. split; [by apply (maxSize_step _ _ op)|].
  destruct op as [now payload|alertID|]; cbn [step] in Hstep.
  - unfold AddWebhook in Hstep.
    apply truncate_Some in Hstep as (Hm & -> & _ & _).
    rewrite maxSize_ingested in *. rewrite length_take. lia.
  - by injection Hstep as <-.
  - injection Hstep as <-. rewrite ClearAcknowledgedAndResolved_clearFrom.
    cbn [fst alerts].
    pose proof (sublist_length _ _ (clearFrom_sublist (alerts a) (acknowledged a))).
    lia.
Qed.

Lemma run_within_capacity (ops : list Op) :
  ∀ a : AppState,
    0 ≤ maxSize a → Z.of_nat (length (alerts a)) ≤ maxSize a →
    ∃ a', run a ops = Some a' ∧ maxSize a' = maxSize a
          ∧ Z.of_nat (length (alerts a')) ≤ maxSize a.
Proof.
  induction ops as [|op ops IH]; intros a Hm Hlen; [by exists a|].
  destruct (run_total [op] a Hm) as [a1 Hstep]. cbn [run] in Hstep |- *.
  destruct (step a op) as [a1'|] eqn:Hop; [|done]. clear Hstep a1.
  destruct (step_within_capacity _ _ _ Hlen Hop) as [Hm1 Hlen1].
  destruct (IH a1') as (a' & Hrun & Hm' & Hlen'); [lia..|].
  exists a'. rewrite Hm1 in *. done.
Qed.




(** ** Notifications without resolved alerts *)

Lemma newEntries_all_accepted (t : Time) (m : list Alert) (rest : list Alert) :
  (∀ x, x ∈ rest → isResolved x = false) →
  ∀ i : nat,
    newEntries t (UnixNano t) m i rest = imap (λ k, entryAt t (i + k)) rest.
Proof.
  induction rest as [|alert rest IH]; intros Hno i; [done|].
  cbn [newEntries]. unfold accepted at 1.
  rewrite (Hno alert) by (by left). cbn [andb negb app].
  rewrite imap_cons, Nat.add_0_r. f_equal.
  rewrite IH by (intros x Hx; apply Hno; by right).
  apply imap_ext. intros k x _. simpl. f_equal. lia.
Qed.

Lemma hasResolvedAlerts_false (l : list Alert) :
  hasResolvedAlerts l = false ↔ ∀ x, x ∈ l → isResolved x = false.
Proof.
  unfold hasResolvedAlerts. split.
  - intros Hno x Hx. apply not_true_is_false. intros Hr.
    assert (existsb isResolved l = true) as Hyes
      by (apply existsb_exists; exists x; by rewrite <- list_elem_of_In).
    congruence.
  - intros Hall. apply not_true_is_false.
    intros (x & Hx & Hr)%existsb_exists.
    rewrite (Hall x) in Hr; [done|by apply list_elem_of_In].
Qed.

(** X2. When no alert of a notification is resolved (whatever its
    top-level status says), the ingestion removes nothing and leaves the
    acknowledgements alone: it puts one new entry per alert in front of the
    store, the last alert first, the entry of the alert at index [i]
    carrying the id printed from the clock reading and [i]; then the cut
    applies.  An empty notification therefore only applies the cut. *)
Theorem notification_without_resolved_prepends_every_alert
    (a : AppState) (now : Time) (payload : WebhookPayload) :
  hasResolvedAlerts (Alerts payload) = false →
  ingested a now payload
  = {| alerts := reverse (imap (entryAt now) (Alerts payload)) ++ alerts a;
       maxSize := maxSize a;
       acknowledged := acknowledged a |}
  ∧ AddWebhook a now payload
    = truncate {| alerts := reverse (imap (entryAt now) (Alerts payload)) ++ alerts a;
                  maxSize := maxSize a;
                  acknowledged := acknowledged a |}
  ∧ (Z.of_nat (length (Alerts payload) + length (alerts a)) ≤ maxSize a →
     AddWebhook a now payload
     = Some {| alerts := reverse (imap (entryAt now) (Alerts payload)) ++ alerts a;
               maxSize := maxSize a;
               acknowledged := acknowledged a |}).
Proof.
  intros Hno.
  assert (ingested a now payload
          = {| alerts := reverse (imap (entryAt now) (Alerts payload)) ++ alerts a;
               maxSize := maxSize a;
               acknowledged := acknowledged a |}) as Hing.
  { rewrite ingested_eq.
    assert (removeMatchingFiringAlerts a (Alerts payload) = (a, [])) as ->.
    { unfold removeMatchingFiringAlerts. fold (resolvedOf (Alerts payload)).
      apply resolvedOf_nil_iff in Hno. by rewrite Hno. }
    cbn [fst snd]. rewrite addAlerts_newEntries, newEntries_all_accepted.
    - reflexivity.
    - by apply hasResolvedAlerts_false. }
  split; [done|]. unfold AddWebhook. rewrite Hing. split; [done|].
  intros Hfit. apply truncate_fits. cbn [alerts maxSize].
  rewrite length_app, length_reverse, length_imap. lia.
Qed.

Lemma notification_without_resolved_witness :
  AddWebhook fresh (at_ 1) (notify "resolved" [firingA; firingB])
  = Some {| alerts := [entryAt (at_ 1) 1 firingB; entryAt (at_ 1) 0 firingA];
            maxSize := 100;
            acknowledged := ∅ |}.
Proof.
  refine (proj2 (proj2 (notification_without_resolved_prepends_every_alert
                          fresh (at_ 1) (notify "resolved" [firingA; firingB]) _)) _).
  - reflexivity.
  - simpl. lia.
Defined.

(** ** Acknowledging *)

(** X3. [Acknowledge] marks the id it is given and no other, touches no
    entry, and may be repeated or reordered freely: acknowledging an id
    twice is acknowledging it once, and two acknowledgements commute. *)
Theorem acknowledge_marks_one_id :
  ∀ (a : AppState) (id : string),
    (∀ id' : string,
       IsAcknowledged (Acknowledge a id) id'
       = bool_decide (id' = id) || IsAcknowledged a id')
    ∧ alerts (Acknowledge a id) = alerts a
    ∧ maxSize (Acknowledge a id) = maxSize a
    ∧ Acknowledge (Acknowledge a id) id = Acknowledge a id
    ∧ (∀ id2 : string,
         Acknowledge (Acknowledge a id) id2 = Acknowledge (Acknowledge a id2) id).
Proof.
  intros a id. split; [|split; [done|split; [done|split]]].
  - intros id'. unfold IsAcknowledged, ackLookup, Acknowledge. cbn [acknowledged].
    case_bool_decide as Hid.
    + subst. by rewrite lookup_insert_eq.
    + by rewrite lookup_insert_ne.
  - unfold Acknowledge. cbn [alerts maxSize acknowledged].
    by rewrite insert_insert_eq.
  - intros id2. unfold Acknowledge. cbn [alerts maxSize acknowledged].
    f_equal. destruct (decide (id = id2)) as [->|Hne]; [done|].
    by apply insert_insert_ne.
Qed.

Lemma unackFiring_Acknowledge (a : AppState) (id : string) (e : AlertEntry) :
  unackFiring (acknowledged (Acknowledge a id)) e
  = unackFiring (acknowledged a) e && negb (bool_decide (ID e = id)).
Proof.
  unfold unackFiring, ackLookup, Acknowledge. cbn [acknowledged].
  case_bool_decide as Hid.
  - rewrite Hid, lookup_insert_eq. simpl. by rewrite !andb_false_r.
  - rewrite lookup_insert_ne by done. by rewrite andb_true_r.
Qed.

Lemma ackLookup_Acknowledge (a : AppState) (id id' : string) :
  ackLookup (acknowledged (Acknowledge a id)) id'
  = bool_decide (id' = id) || ackLookup (acknowledged a) id'.
Proof.
  unfold ackLookup, Acknowledge. cbn [acknowledged]. case_bool_decide as Hid.
  - subst. by rewrite lookup_insert_eq.
  - by rewrite lookup_insert_ne.
Qed.

Lemma foldl_Acknowledge_keeps (ids : list string) (id : string) :
  ∀ a : AppState,
    ackLookup (acknowledged a) id = true →
    ackLookup (acknowledged (foldl Acknowledge a ids)) id = true.
Proof.
  induction ids as [|id2 ids IH]; intros a Hack; [done|].
  cbn [foldl]. apply IH. rewrite ackLookup_Acknowledge, Hack. apply orb_true_r.
Qed.

Lemma alerts_foldl_Acknowledge (ids : list string) :
  ∀ a : AppState,
    alerts (foldl Acknowledge a ids) = alerts a
    ∧ ∀ id, id ∈ ids → ackLookup (acknowledged (foldl Acknowledge a ids)) id = true.
Proof.
  induction ids as [|id ids IH]; intros a.
  - split; [done|]. by intros id ?%elem_of_nil.
  - cbn [foldl]. destruct (IH (Acknowledge a id)) as [IH1 IH2].
    split; [by rewrite IH1|]. intros id' [->|Hin]%elem_of_cons; [|by apply IH2].
    apply foldl_Acknowledge_keeps. rewrite ackLookup_Acknowledge.
    by rewrite bool_decide_eq_true_2.
Qed.

(** X4. After [Acknowledge(id)] the alarm condition holds exactly when some
    stored entry with another id is firing and was unacknowledged; so an
    acknowledgement never raises the alarm, and acknowledging the id of
    every stored entry silences it. *)
Theorem acknowledge_silences_entries_of_its_id :
  ∀ (a : AppState) (id : string),
    (HasUnacknowledgedAlerts (Acknowledge a id) = true ↔
     ∃ e, e ∈ alerts a ∧ unackFiring (acknowledged a) e = true ∧ ID e ≠ id)
    ∧ (HasUnacknowledgedAlerts a = false →
       HasUnacknowledgedAlerts (Acknowledge a id) = false)
    ∧ HasUnacknowledgedAlerts (foldl Acknowledge a (ID <$> alerts a)) = false.
Proof.
  intros a id.
  assert (HasUnacknowledgedAlerts (Acknowledge a id) = true ↔
          ∃ e, e ∈ alerts a ∧ unackFiring (acknowledged a) e = true ∧ ID e ≠ id)
    as Hiff.
  { rewrite HasUnacknowledgedAlerts_spec.
    split; intros (e & He & Hu); exists e; (split; [exact He|]).
    - rewrite unackFiring_Acknowledge in Hu.
      apply andb_true_iff in Hu as [Hu Hid]. split; [done|].
      apply negb_true_iff, bool_decide_eq_false in Hid. done.
    - destruct Hu as [Hu Hid]. rewrite unackFiring_Acknowledge, Hu.
      by rewrite bool_decide_eq_false_2. }
  split; [exact Hiff|]. split.
  - intros Hno. apply not_true_is_false. intros (e & He & Hu & _)%Hiff.
    rewrite HasUnacknowledgedAlerts_false in Hno.
    rewrite (Hno e He) in Hu. discriminate.
  - apply HasUnacknowledgedAlerts_false.
    destruct (alerts_foldl_Acknowledge (ID <$> alerts a) a) as [Hal Hack].
    rewrite Hal. intros e He. unfold unackFiring.
    rewrite Hack by (by apply list_elem_of_fmap_2). apply andb_false_r.
Qed.

(** ** Clearing again, and the alarm *)

Lemma clearFrom_fixed (l : list AlertEntry) (ack : gmap string bool) :
  (∀ e, e ∈ l → unackFiring ack e = true) → clearFrom ack l = (l, ack, 0).
Proof.
  induction l as [|x l IH]; intros Hall; [done|].
  cbn [clearFrom]. fold (unackFiring ack x). rewrite (Hall x) by (by left).
  rewrite IH by (intros e He; apply Hall; by right). done.
Qed.

(** X5. Clearing twice is clearing once: the second
    [ClearAcknowledgedAndResolved] finds nothing to remove, returns 0 and
    leaves the store and the acknowledgement set as the first one left
    them. *)
Theorem clear_again_removes_nothing :
  ∀ a : AppState,
    ClearAcknowledgedAndResolved (ClearAcknowledgedAndResolved a).1
    = ((ClearAcknowledgedAndResolved a).1, 0).
Proof.
  intros a. rewrite (ClearAcknowledgedAndResolved_clearFrom a). cbn [fst].
  rewrite ClearAcknowledgedAndResolved_clearFrom. cbn [alerts acknowledged maxSize].
  rewrite clearFrom_fixed; [done|].
  intros e He. by apply clearFrom_kept in He as [_ Hu].
Qed.

(** X6. Clearing never silences the alarm: if an entry was firing and
    unacknowledged before, the alarm condition still holds afterwards.
    After a clearing the alarm condition holds exactly when the store is
    not empty; and when the stored ids are pairwise distinct, clearing
    leaves the alarm condition as it was. *)
Theorem clear_preserves_alarm :
  ∀ a : AppState,
    let a' := (ClearAcknowledgedAndResolved a).1 in
    (HasUnacknowledgedAlerts a = true → HasUnacknowledgedAlerts a' = true)
    ∧ (HasUnacknowledgedAlerts a' = true ↔ alerts a' ≠ [])
    ∧ (NoDup (ID <$> alerts a) →
       HasUnacknowledgedAlerts a' = HasUnacknowledgedAlerts a).
Proof.
  intros a a'. subst a'. rewrite ClearAcknowledgedAndResolved_clearFrom. cbn [fst].
  set (k := (clearFrom (acknowledged a) (alerts a)).1.1).
  set (ack' := (clearFrom (acknowledged a) (alerts a)).1.2).
  assert (∀ e, e ∈ k → unackFiring ack' e = true) as Hkept
    by (intros e He; by apply clearFrom_kept in He as [_ Hu]).
  assert (HasUnacknowledgedAlerts
            {| alerts := k; maxSize := maxSize a; acknowledged := ack' |} = true
          ↔ k ≠ []) as Hne.
  { rewrite HasUnacknowledgedAlerts_spec. cbn [alerts acknowledged]. split.
    - intros (e & He & _) ->. by apply elem_of_nil in He.
    - destruct k as [|e k'] eqn:Hk; [done|]. intros _. exists e.
      split; [by left|]. apply Hkept. by left. }
  assert (HasUnacknowledgedAlerts a = true → k ≠ []) as Hkeeps.
  { intros (e & He & Hu)%HasUnacknowledgedAlerts_spec Hk.
    apply (clearFrom_keeps _ _ _ He) in Hu. fold k in Hu. rewrite Hk in Hu.
    by apply elem_of_nil in Hu. }
  split; [|split; [exact Hne|]].
  - intros Hu. by apply Hne, Hkeeps.
  - intros Hnd. destruct (HasUnacknowledgedAlerts a) eqn:Ha.
    + by apply Hne, Hkeeps.
    + apply not_true_is_false. intros Hk%Hne. apply Hk.
      subst k. destruct (clearFrom_distinct _ (acknowledged a) Hnd) as [-> _].
      apply filter_none. intros e He.
      rewrite HasUnacknowledgedAlerts_false in Ha. rewrite (Ha e He). intros [].
Qed.

Lemma clear_preserves_alarm_witness :
  HasUnacknowledgedAlerts (ClearAcknowledgedAndResolved mixedStore).1
  = HasUnacknowledgedAlerts mixedStore.
Proof.
  refine (proj2 (proj2 (clear_preserves_alarm mixedStore)) _).
  apply (bool_decide_unpack _). vm_compute. exact I.
Defined.

Lemma acknowledge_silences_witness :
  HasUnacknowledgedAlerts (Acknowledge fresh "1-0") = false.
Proof.
  refine (proj1 (proj2 (acknowledge_silences_entries_of_its_id fresh "1-0")) _).
  reflexivity.
Defined.

(** ** Ingestions and the alarm *)

Lemma newEntries_app (t : Time) (b : Z) (m : list Alert) (l1 l2 : list Alert) :
  ∀ i : nat,
    newEntries t b m i (l1 ++ l2)
    = newEntries t b m i l1 ++ newEntries t b m (i + length l1) l2.
Proof.
  induction l1 as [|x l1 IH]; intros i.
  - simpl. by rewrite Nat.add_0_r.
  - cbn [app newEntries length]. rewrite IH, Nat.add_succ_r, <- app_assoc. done.
Qed.

(** X7. When the last alert of a notification is firing, the capacity is
    at least one and the id of its entry is not acknowledged beforehand,
    the ingestion returns a store whose first entry is the entry of that
    alert, and the alarm condition holds. *)
Theorem last_firing_alert_raises_alarm
    (a : AppState) (now : Time) (payload : WebhookPayload)
    (pre : list Alert) (f : Alert) :
  Alerts payload = pre ++ [f] → Status f = "firing" → 1 ≤ maxSize a →
  ackLookup (acknowledged a) (SprintfID (UnixNano now) (length pre)) = false →
  ∃ a' : AppState,
    AddWebhook a now payload = Some a'
    ∧ head (alerts a') = Some (entryAt now (length pre) f)
    ∧ HasUnacknowledgedAlerts a' = true.
Proof.
  intros Hpay Hf Hm Hack. unfold AddWebhook.
  rewrite truncate_nonneg by (rewrite maxSize_ingested; lia).
  eexists. split; [reflexivity|]. cbn [alerts acknowledged].
  rewrite maxSize_ingested.
  assert (∃ rest, alerts (ingested a now payload)
                  = entryAt now (length pre) f :: rest) as [rest Hal].
  { rewrite alerts_ingested, Hpay, newEntries_app. cbn [newEntries].
    assert (accepted
              (omap (matchingResolved (resolvedOf (pre ++ [f]))) (alerts a)) f
            = true) as ->.
    { unfold accepted, isResolved. by rewrite Hf. }
    rewrite app_nil_r, reverse_app. cbn [reverse rev_append app Nat.add].
    by eexists. }
  rewrite Hal.
  destruct (Z.to_nat (maxSize a)) as [|n] eqn:Hn; [lia|]. cbn [take head].
  split; [done|]. apply HasUnacknowledgedAlerts_spec. cbn [alerts acknowledged].
  exists (entryAt now (length pre) f). split; [by left|].
  unfold unackFiring, entryAt, isFiring. cbn [EAlert ID]. rewrite Hf.
  rewrite acknowledged_ingested.
  by rewrite (ackLookup_subseteq _ _ _ (deleteIDs_subseteq _ _) Hack).
Qed.

Lemma last_firing_alert_witness :
  ∃ a' : AppState,
    AddWebhook fresh (at_ 1) (notify "firing" [firingA]) = Some a'
    ∧ head (alerts a') = Some (entryAt (at_ 1) 0 firingA)
    ∧ HasUnacknowledgedAlerts a' = true.
Proof.
  apply (last_firing_alert_raises_alarm fresh (at_ 1)
           (notify "firing" [firingA]) [] firingA);
    [reflexivity | reflexivity | simpl; lia | reflexivity].
Defined.

Lemma NoDup_fmap_eq {A B} (f : A → B) (l : list A) (x y : A) :
  NoDup (f <$> l) → x ∈ l → y ∈ l → f x = f y → x = y.
Proof.
  induction l as [|z l IH]; intros Hnd Hx Hy Heq; [by apply elem_of_nil in Hx|].
  rewrite fmap_cons in Hnd. apply NoDup_cons in Hnd as [Hz Hnd].
  apply elem_of_cons in Hx as [->|Hx], Hy as [->|Hy]; [done| | |by apply IH].
  - destruct Hz. rewrite Heq. by apply list_elem_of_fmap_2.
  - destruct Hz. rewrite <- Heq. by apply list_elem_of_fmap_2.
Qed.

(** X8. With pairwise distinct stored ids, a notification that carries no
    firing alert never raises the alarm: if no stored entry was firing and
    unacknowledged before the ingestion, none is afterwards. *)
Theorem notification_without_firing_keeps_alarm_off
    (a a' : AppState) (now : Time) (payload : WebhookPayload) :
  NoDup (ID <$> alerts a) →
  (∀ x, x ∈ Alerts payload → Status x ≠ "firing") →
  HasUnacknowledgedAlerts a = false →
  AddWebhook a now payload = Some a' →
  HasUnacknowledgedAlerts a' = false.
Proof.
  intros Hnd Hnofire Hoff Hadd. unfold AddWebhook in Hadd.
  apply truncate_Some in Hadd as (_ & Hal & _ & Hack).
  apply HasUnacknowledgedAlerts_false. intros e He.
  rewrite Hal in He. apply (subseteq_take _ _ e) in He.
  rewrite Hack, acknowledged_ingested. rewrite alerts_ingested in He.
  rewrite HasUnacknowledgedAlerts_false in Hoff.
  apply elem_of_app in He as [He|He].
  - apply elem_of_reverse, elem_of_newEntries in He as (k & x & Hk & _ & ->).
    unfold unackFiring, isFiring. cbn [EAlert].
    rewrite bool_decide_eq_false_2; [done|].
    apply Hnofire. by eapply list_elem_of_lookup_2.
  - apply elem_of_kept in He as [Hkeep He]. specialize (Hoff e He).
    unfold unackFiring in *. destruct (isFiring (EAlert e)); [|done].
    simpl in *. apply negb_false_iff in Hoff. apply negb_false_iff.
    unfold ackLookup in *. rewrite lookup_deleteIDs.
    rewrite bool_decide_eq_false_2; [done|].
    intros (r & Hid & Hr)%list_elem_of_fmap. apply elem_of_removed in Hr as [Hrem Hr].
    assert (e = r) as -> by (by apply (NoDup_fmap_eq ID (alerts a))).
    congruence.
Qed.

Lemma notification_without_firing_witness :
  HasUnacknowledgedAlerts
    {| alerts := [{| ID := "2-0"; Timestamp := at_ 2; EAlert := resolvedB |}];
       maxSize := 100;
       acknowledged := ∅ |} = false.
Proof.
  refine (notification_without_firing_keeps_alarm_off
            {| alerts := [{| ID := "1-0"; Timestamp := at_ 1; EAlert := firingB |}];
               maxSize := 100;
               acknowledged := {["1-0" := true]} |} _ (at_ 2)
            (notify "resolved" [resolvedB]) _ _ _ _).
  - apply (bool_decide_unpack _). vm_compute. exact I.
  - intros x Hx. apply list_elem_of_singleton in Hx as ->. discriminate.
  - reflexivity.
  - vm_compute. reflexivity.
Defined.

(** ** The snapshot and the page *)

Lemma entryPriority_zero (a : AppState) (e : AlertEntry) :
  entryPriority a e = 0 ↔ unackFiring (acknowledged a) e = true.
Proof.
  unfold entryPriority, unackFiring, isFiring. rewrite getAlertPriority_cases.
  case_bool_decide; destruct (ackLookup (acknowledged a) (ID e)); simpl;
    split; (done || lia).
Qed.

Lemma entryPriority_range (a : AppState) (e : AlertEntry) :
  0 ≤ entryPriority a e ≤ 2.
Proof.
  unfold entryPriority. rewrite getAlertPriority_cases.
  case_bool_decide; destruct (ackLookup (acknowledged a) (ID e)); lia.
Qed.

Lemma elem_of_GetAlerts (a : AppState) (e : AlertEntry) :
  e ∈ GetAlerts a ↔ e ∈ alerts a.
Proof. unfold GetAlerts. by rewrite merge_sort_Permutation. Qed.

(** X9. The snapshot has the entries of the store, no more and no fewer,
    and whenever the alarm condition holds its first entry is a firing,
    unacknowledged one (and only then). *)
Theorem snapshot_starts_with_unacknowledged_firing :
  ∀ a : AppState,
    length (GetAlerts a) = length (alerts a)
    ∧ (∀ e, e ∈ GetAlerts a ↔ e ∈ alerts a)
    ∧ (HasUnacknowledgedAlerts a = true ↔
       ∃ x, head (GetAlerts a) = Some x
            ∧ Status (EAlert x) = "firing"
            ∧ IsAcknowledged a (ID x) = false).
Proof.
  intros a. split; [|split; [apply elem_of_GetAlerts|]].
  - unfold GetAlerts. by rewrite merge_sort_Permutation.
  - assert (∀ x, unackFiring (acknowledged a) x = true ↔
                 Status (EAlert x) = "firing" ∧ IsAcknowledged a (ID x) = false)
      as Hunack.
    { intros x. unfold unackFiring, isFiring, IsAcknowledged.
      rewrite andb_true_iff, bool_decide_eq_true, negb_true_iff. done. }
    rewrite HasUnacknowledgedAlerts_spec. split.
    + intros (e & He & Hu). apply elem_of_GetAlerts in He.
      apply list_elem_of_lookup in He as [j Hj].
      destruct (GetAlerts a) as [|x l] eqn:Hsnap; [by rewrite lookup_nil in Hj|].
      exists x. split; [done|]. apply Hunack.
      destruct j as [|j]; [simpl in Hj; congruence|].
      apply entryPriority_zero. apply entryPriority_zero in Hu.
      assert (notAfter a x e) as Hxe.
      { apply (GetAlerts_sorted a 0 (S j)); [lia|by rewrite Hsnap..]. }
      apply notAfter_spec in Hxe as [Hle _].
      pose proof (entryPriority_range a x). lia.
    + intros (x & Hx & Hu). exists x. split; [|by apply Hunack].
      apply elem_of_GetAlerts. destruct (GetAlerts a); [done|].
      injection Hx as ->. by left.
Qed.



(** * The handlers *)

(** ** Texts *)

Lemma HasPrefix_append (p k : string) : HasPrefix (p +:+ k) p = true.
Proof.
  induction p as [|c p IH]; [done|].
  rewrite append_String. cbn [HasPrefix]. by rewrite bool_decide_eq_true_2.
Qed.

Lemma sliceFrom_append (p k : string) : sliceFrom (String.length p) (p +:+ k) = k.
Proof. induction p as [|c p IH]; [done|]. by rewrite append_String. Qed.

Lemma TrimPrefix_append (p k : string) : TrimPrefix (p +:+ k) p = k.
Proof. unfold TrimPrefix. by rewrite HasPrefix_append, sliceFrom_append. Qed.

Lemma HasPrefix_split (s p : string) :
  HasPrefix s p = true → s = p +:+ TrimPrefix s p.
Proof.
  intros Hp. unfold TrimPrefix. rewrite Hp. revert s Hp.
  induction p as [|c p IH]; intros s Hp; [done|].
  destruct s as [|d s]; [done|]. cbn [HasPrefix] in Hp.
  apply andb_true_iff in Hp as [Hc Hp]. apply bool_decide_eq_true in Hc as ->.
  rewrite append_String. cbn [String.length sliceFrom]. f_equal. by apply IH.
Qed.


(** The key a request presents is the configured one exactly when it
    stands in [X-API-Key], or [X-API-Key] is empty and [Authorization] is
    [Bearer] followed by it. *)
Lemma presentedKey_spec (r : Request) (key : string) :
  key ≠ "" →
  presentedKey r = key ↔
  Header r "X-API-Key" = key
  ∨ (Header r "X-API-Key" = "" ∧ Header r "Authorization" = "Bearer " +:+ key).
Proof.
  intros Hkey. unfold presentedKey. case_bool_decide as Hx.
  - destruct (HasPrefix (Header r "Authorization") "Bearer ") eqn:Hp.
    + split.
      * intros Hk. right. split; [done|].
        rewrite <- Hk. by apply HasPrefix_split.
      * intros [Hk|[_ Hk]]; [congruence|]. rewrite Hk. apply TrimPrefix_append.
    + split; [congruence|]. intros [Hk|[_ Hk]]; [congruence|].
      rewrite Hk, HasPrefix_append in Hp. discriminate.
  - split; [by left|]. intros [Hk|[Hk _]]; [done|congruence].
Qed.

(** ** Authentication *)

Section Authentication.
Context `{NetLib}.
Implicit Types (config : Config) (handler : Handler) (r : Request)
  (now : Time) (state : AppState).

Lemma authMiddleware_cases config handler r now state :
  authMiddleware config handler r now state = handler r now state
  ∨ authMiddleware config handler r now state
    = Some (state, httpError "Forbidden" 403)
  ∨ authMiddleware config handler r now state
    = Some (state, httpError "Unauthorized" 401)
  ∨ authMiddleware config handler r now state
    = Some (state, httpError "HTTPS required" 400).
Proof.
  unfold authMiddleware.
  destruct (negb (bool_decide (length (AllowedIPs config) = 0%nat))
            && negb (isIPAllowed (getClientIP r) (AllowedIPs config)));
    [by right; left|].
  destruct (negb (bool_decide (WebhookAPIKey config = ""))
            && negb (bool_decide (presentedKey r = WebhookAPIKey config)));
    [by right; right; left|].
  destruct (RequireHTTPS config && negb (TLS r)); [by right; right; right|].
  by left.
Qed.

End Authentication.

(** X11. With an API key configured, [authMiddleware] lets a request reach
    the handler only if it presents the key, in [X-API-Key] or, when that
    header is empty, as [Authorization: Bearer <key>]: any other request is
    answered 401 (or 403 when the address check fails first) and the state
    is untouched.  With no whitelist and no HTTPS requirement a request
    that presents the key is handled as if there were no middleware. *)
Theorem api_key_is_required :
  ∀ (L : NetLib) (config : Config) (handler : Handler) (r : Request)
    (now : Time) (state : AppState),
    WebhookAPIKey config ≠ "" →
    let presented :=
      Header r "X-API-Key" = WebhookAPIKey config
      ∨ (Header r "X-API-Key" = ""
         ∧ Header r "Authorization" = "Bearer " +:+ WebhookAPIKey config) in
    (¬ presented →
     authMiddleware config handler r now state
     = Some (state, httpError "Unauthorized" 401)
     ∨ authMiddleware config handler r now state
       = Some (state, httpError "Forbidden" 403))
    ∧ (presented → AllowedIPs config = [] → RequireHTTPS config = false →
       authMiddleware config handler r now state = handler r now state).
Proof.
  intros L config handler r now state Hkey presented. subst presented.
  rewrite <- (presentedKey_spec r _ Hkey). unfold authMiddleware. split.
  - intros Hno.
    destruct (negb (bool_decide (length (AllowedIPs config) = 0%nat))
              && negb (isIPAllowed (getClientIP r) (AllowedIPs config)));
      [by right|]. left.
    rewrite (bool_decide_eq_false_2 _ Hkey), (bool_decide_eq_false_2 _ Hno).
    done.
  - intros Hyes -> ->. cbn [length].
    rewrite (bool_decide_eq_true_2 (0%nat = 0%nat)) by done.
    rewrite (bool_decide_eq_true_2 _ Hyes). simpl. by rewrite andb_false_r.
Qed.

Lemma api_key_witness :
  authMiddleware keyOnly webhookHandler (post bearerHeaders "" (inl "EOF"))
    (at_ 1) fresh
  = webhookHandler (post bearerHeaders "" (inl "EOF")) (at_ 1) fresh.
Proof.
  refine (proj2 (api_key_is_required textLib keyOnly webhookHandler
                   (post bearerHeaders "" (inl "EOF")) (at_ 1) fresh _) _ _ _).
  - discriminate.
  - right. split; reflexivity.
  - reflexivity.
  - reflexivity.
Defined.

(** X12. [authMiddleware] either hands the request to the handler or
    answers 403, 401 or 400 itself, leaving the state as it was.  A request
    from an address outside a configured whitelist is answered 403 whatever
    key it presents; with nothing configured the middleware is transparent,
    so the test by which [main] decides to install it changes nothing. *)
Theorem authMiddleware_outcomes :
  ∀ (L : NetLib) (config : Config) (handler : Handler) (r : Request)
    (now : Time) (state : AppState),
    (authMiddleware config handler r now state = handler r now state
     ∨ authMiddleware config handler r now state
       = Some (state, httpError "Forbidden" 403)
     ∨ authMiddleware config handler r now state
       = Some (state, httpError "Unauthorized" 401)
     ∨ authMiddleware config handler r now state
       = Some (state, httpError "HTTPS required" 400))
    ∧ (AllowedIPs config ≠ [] →
       isIPAllowed (getClientIP r) (AllowedIPs config) = false →
       authMiddleware config handler r now state
       = Some (state, httpError "Forbidden" 403))
    ∧ (WebhookAPIKey config = "" → AllowedIPs config = [] →
       RequireHTTPS config = false →
       authMiddleware config handler r now state = handler r now state)
    ∧ webhookRoute config r now state
      = authMiddleware config webhookHandler r now state.
Proof.
  intros L config handler r now state.
  assert (WebhookAPIKey config = "" → AllowedIPs config = [] →
          RequireHTTPS config = false →
          ∀ h, authMiddleware config h r now state = h r now state) as Hopen.
  { intros Hk Hl Hs h. unfold authMiddleware. rewrite Hk, Hl, Hs. done. }
  split; [apply authMiddleware_cases|]. split; [|split].
  - intros Hl Hip. unfold authMiddleware. rewrite Hip.
    rewrite bool_decide_eq_false_2; [done|].
    by intros ?%length_zero_iff_nil.
  - intros Hk Hl Hs. by apply Hopen.
  - unfold webhookRoute.
    destruct (negb (bool_decide (WebhookAPIKey config = ""))
              || negb (bool_decide (length (AllowedIPs config) = 0%nat))
              || RequireHTTPS config) eqn:Hc; [done|].
    apply orb_false_iff in Hc as [Hc Hs].
    apply orb_false_iff in Hc as [Hk Hl].
    apply negb_false_iff, bool_decide_eq_true in Hk, Hl.
    apply length_zero_iff_nil in Hl. symmetry. by apply Hopen.
Qed.

Lemma authMiddleware_outcomes_witness :
  authMiddleware listOnly webhookHandler (post noHeaders "" (inl "EOF"))
    (at_ 1) fresh
  = Some (fresh, httpError "Forbidden" 403).
Proof.
  refine (proj1 (proj2 (authMiddleware_outcomes textLib listOnly webhookHandler
                          (post noHeaders "" (inl "EOF")) (at_ 1) fresh)) _ _).
  - discriminate.
  - reflexivity.
Defined.





(** ** The handlers and the store *)

Lemma webhookHandler_cases (r : Request) (now : Time) (state state' : AppState)
    (resp : Response) :
  webhookHandler r now state = Some (state', resp) →
  (state' = state ∧ (StatusCode resp = 405 ∨ StatusCode resp = 400))
  ∨ (Method r = "POST" ∧ resp = httpOK "OK"
     ∧ ∃ payload, Body r = inr payload ∧ AddWebhook state now payload = Some state').
Proof.
  unfold webhookHandler. case_bool_decide as Hm; simpl.
  - destruct (Body r) as [err|payload].
    + intros [= <- <-]. left. split; [done|by right].
    + destruct (AddWebhook state now payload) as [s1|] eqn:Hadd; [|done].
      intros [= <- <-]. right. split; [done|]. split; [done|]. by exists payload.
  - intros [= <- <-]. left. split; [done|by left].
Qed.

Section Serving.
Context `{NetLib}.

(** What one served request does to the store: nothing, or one store
    operation; an ingestion only for a webhook request, with its clock. *)
Lemma serve_step (config : Config) (route : Route) (r : Request) (now : Time)
    (state state' : AppState) (resp : Response) :
  serve config route r now state = Some (state', resp) →
  ∃ ops : list Op,
    run state ops = Some state'
    ∧ ingestClocks ops `sublist_of` webhookClocks [(route, r, now)].
Proof.
  destruct route; cbn [serve].
  - intros Hs.
    assert (authMiddleware config webhookHandler r now state
            = Some (state', resp)) as Ha.
    { unfold webhookRoute in Hs.
      destruct (negb (bool_decide (WebhookAPIKey config = ""))
                || negb (bool_decide (length (AllowedIPs config) = 0%nat))
                || RequireHTTPS config) eqn:Hc; [done|].
      apply orb_false_iff in Hc as [Hc Hs'].
      apply orb_false_iff in Hc as [Hk Hl].
      apply negb_false_iff, bool_decide_eq_true in Hk, Hl.
      apply length_zero_iff_nil in Hl.
      unfold authMiddleware. rewrite Hk, Hl, Hs'. exact Hs. }
    assert (webhookHandler r now state = Some (state', resp) ∨ state' = state)
      as [Hw| ->].
    { destruct (authMiddleware_cases config webhookHandler r now state)
        as [Hh|[Hh|[Hh|Hh]]]; rewrite Hh in Ha;
        [by left|right; congruence..]. }
    + apply webhookHandler_cases in Hw as [[-> _]|(_ & _ & payload & _ & Hadd)].
      * exists []. split; [done|]. apply sublist_nil_l.
      * exists [OpAddWebhook now payload]. split.
        -- cbn [run step]. by rewrite Hadd.
        -- done.
    + exists []. split; [done|]. apply sublist_nil_l.
  - unfold acknowledgeHandler. intros Hs.
    case_bool_decide; simpl in Hs; [case_bool_decide|].
    + injection Hs as <- _. exists []. split; [done|]. apply sublist_nil_l.
    + injection Hs as <- _. exists [OpAcknowledge (QueryID r)]. by split.
    + injection Hs as <- _. exists []. split; [done|]. apply sublist_nil_l.
  - unfold clearHandler. intros Hs. case_bool_decide; simpl in Hs.
    + destruct (ClearAcknowledgedAndResolved state) as [s1 n] eqn:Hclear.
      injection Hs as <- _. exists [OpClear]. split; [|done].
      cbn [run step]. by rewrite Hclear.
    + injection Hs as <- _. exists []. split; [done|]. apply sublist_nil_l.
Qed.

Lemma serve_total (config : Config) (route : Route) (r : Request) (now : Time)
    (state : AppState) :
  0 ≤ maxSize state →
  ∃ state' resp, serve config route r now state = Some (state', resp).
Proof.
  intros Hm.
  assert (∃ state' resp, webhookHandler r now state = Some (state', resp)) as Hw.
  { unfold webhookHandler. case_bool_decide; simpl; [|by eauto].
    destruct (Body r) as [err|payload]; [by eauto|].
    unfold AddWebhook. rewrite truncate_nonneg by (by rewrite maxSize_ingested).
    by eauto. }
  destruct route; cbn [serve].
  - assert (∃ state' resp,
              authMiddleware config webhookHandler r now state
              = Some (state', resp)) as Ha.
    { destruct (authMiddleware_cases config webhookHandler r now state)
        as [Hh|[Hh|[Hh|Hh]]]; rewrite Hh; by eauto. }
    unfold webhookRoute. by case_match.
  - unfold acknowledgeHandler. repeat case_bool_decide; simpl; by eauto.
  - unfold clearHandler. case_bool_decide; simpl; [|by eauto].
    destruct (ClearAcknowledgedAndResolved state). by eauto.
Qed.

Lemma run_app (ops1 ops2 : list Op) (a a1 a2 : AppState) :
  run a ops1 = Some a1 → run a1 ops2 = Some a2 → run a (ops1 ++ ops2) = Some a2.
Proof.
  revert a. induction ops1 as [|op ops1 IH]; intros a.
  - by intros [= ->].
  - cbn [run app]. destruct (step a op); [|done]. apply IH.
Qed.

Lemma maxSize_run (ops : list Op) :
  ∀ a a', run a ops = Some a' → maxSize a' = maxSize a.
Proof.
  induction ops as [|op ops IH]; intros a a'; [by intros [= ->]|].
  cbn [run]. destruct (step a op) as [a1|] eqn:Hop; [|done].
  intros Hrun. rewrite (IH _ _ Hrun). by apply (maxSize_step _ _ op).
Qed.

(** A served list of requests is a run of store operations. *)
Lemma serveAll_run (config : Config) (requests : list (Route * Request * Time)) :
  ∀ state : AppState,
    0 ≤ maxSize state →
    ∃ final responses ops,
      serveAll config requests state = Some (final, responses)
      ∧ length responses = length requests
      ∧ run state ops = Some final
      ∧ ingestClocks ops `sublist_of` webhookClocks requests.
Proof.
  induction requests as [|[[route r] now] rest IH]; intros state Hm.
  - exists state, [], []. by repeat split.
  - destruct (serve_total config route r now state Hm) as (s1 & resp & Hs).
    destruct (serve_step _ _ _ _ _ _ _ Hs) as (ops1 & Hrun1 & Hsub1).
    destruct (IH s1) as (final & resps & ops2 & Hall & Hlen & Hrun2 & Hsub2).
    { by rewrite (maxSize_run _ _ _ Hrun1). }
    exists final, (resp :: resps), (ops1 ++ ops2).
    cbn [serveAll]. rewrite Hs, Hall. split; [done|].
    split; [simpl; by rewrite Hlen|]. split; [by eapply run_app|].
    unfold ingestClocks, webhookClocks in *.
    rewrite map_app, concat_app. cbn [map concat] in *.
    rewrite app_nil_r in Hsub1. by apply sublist_app.
Qed.
End Serving.

(** X15. Whatever requests reach [/webhook], [/acknowledge] and [/clear],
    and whatever the configuration, a server whose store was created with
    a capacity [m >= 0] answers every one of them without a panic, and its
    store then holds at most [m] entries; if no two webhook requests were
    given the same wall-clock reading, the stored ids are pairwise
    distinct. *)
Theorem server_keeps_store_within_capacity :
  ∀ (L : NetLib) (config : Config) (requests : list (Route * Request * Time))
    (m : Z),
    0 ≤ m →
    ∃ (final : AppState) (responses : list Response),
      serveAll config requests (NewAppState m) = Some (final, responses)
      ∧ length responses = length requests
      ∧ maxSize final = m
      ∧ Z.of_nat (length (alerts final)) ≤ m
      ∧ (NoDup (webhookClocks requests) → NoDup (ID <$> alerts final)).
Proof.
  intros L config requests m Hm.
  destruct (serveAll_run config requests (NewAppState m) Hm)
    as (final & resps & ops & Hall & Hlen & Hrun & Hsub).
  exists final, resps. split; [done|]. split; [done|].
  destruct (run_within_capacity ops (NewAppState m)) as (a' & Hrun' & Hm' & Hcap);
    [simpl; lia..|].
  rewrite Hrun in Hrun'. injection Hrun' as <-.
  split; [done|]. split; [done|]. intros Hnd.
  eapply (idsFrom_run ops [] (NewAppState m) final); [|intros c _; apply not_elem_of_nil| |done].
  - by apply (sublist_NoDup _ (webhookClocks requests)).
  - split; [constructor|]. by intros e ?%elem_of_nil.
Qed.

Lemma server_keeps_store_witness :
  ∃ (final : AppState) (responses : list Response),
    serveAll keyOnly
      [(RouteWebhook, post bearerHeaders "" (inr (notify "firing" [firingA])), at_ 1);
       (RouteAcknowledge, post noHeaders "1-0" (inl ""), at_ 2);
       (RouteClear, post noHeaders "" (inl ""), at_ 3)]
      (NewAppState 100) = Some (final, responses)
    ∧ length responses = 3%nat
    ∧ maxSize final = 100
    ∧ Z.of_nat (length (alerts final)) ≤ 100.
Proof.
  destruct (server_keeps_store_within_capacity textLib keyOnly
              [(RouteWebhook, post bearerHeaders "" (inr (notify "firing" [firingA])), at_ 1);
               (RouteAcknowledge, post noHeaders "1-0" (inl ""), at_ 2);
               (RouteClear, post noHeaders "" (inl ""), at_ 3)] 100)
    as (final & responses & H1 & H2 & H3 & H4 & _); [lia|].
  exists final, responses. by repeat split.
Defined.

Lemma webhookRoute_authMiddleware `{NetLib} (config : Config) (r : Request)
    (now : Time) (state : AppState) :
  webhookRoute config r now state
  = authMiddleware config webhookHandler r now state.
Proof.
  unfold webhookRoute.
  destruct (negb (bool_decide (WebhookAPIKey config = ""))
            || negb (bool_decide (length (AllowedIPs config) = 0%nat))
            || RequireHTTPS config) eqn:Hc; [done|].
  apply orb_false_iff in Hc as [Hc Hs].
  apply orb_false_iff in Hc as [Hk Hl].
  apply negb_false_iff, bool_decide_eq_true in Hk, Hl.
  apply length_zero_iff_nil in Hl.
  unfold authMiddleware. by rewrite Hk, Hl, Hs.
Qed.

(** X16. A request changes the store only when it is answered 200.  Every
    other answer (405 for a method other than POST, 400 for a body that
    does not decode, a missing [id] or a missing TLS, 401, 403) leaves the
    state exactly as it was; and an answer 200 means a POST that performed
    the store operation of its route: the ingestion of the decoded
    payload, the acknowledgement of a non-empty [id], or the clearing. *)
Theorem only_answer_200_changes_the_store :
  ∀ (L : NetLib) (config : Config) (route : Route) (r : Request) (now : Time)
    (state state' : AppState) (resp : Response),
    serve config route r now state = Some (state', resp) →
    StatusCode resp ∈ [200; 400; 401; 403; 405]
    ∧ (StatusCode resp ≠ 200 → state' = state)
    ∧ (StatusCode resp = 200 →
       Method r = "POST"
       ∧ match route with
         | RouteWebhook =>
             ∃ payload, Body r = inr payload
                        ∧ AddWebhook state now payload = Some state'
         | RouteAcknowledge =>
             QueryID r ≠ "" ∧ state' = Acknowledge state (QueryID r)
         | RouteClear => state' = (ClearAcknowledgedAndResolved state).1
         end).
Proof.
  intros L config route r now state state' resp.
  destruct route; cbn [serve].
  - rewrite webhookRoute_authMiddleware. intros Ha.
    destruct (authMiddleware_cases config webhookHandler r now state)
      as [Hh|[Hh|[Hh|Hh]]]; rewrite Hh in Ha.
    + apply webhookHandler_cases in Ha
        as [[-> [Hc|Hc]]|(Hm & -> & payload & Hb & Hadd)].
      * rewrite Hc. split; [set_solver|]. split; [done|lia].
      * rewrite Hc. split; [set_solver|]. split; [done|lia].
      * split; [set_solver|]. split; [done|]. intros _. split; [done|].
        by exists payload.
    + injection Ha as <- <-. split; [set_solver|]. split; [done|]. simpl. lia.
    + injection Ha as <- <-. split; [set_solver|]. split; [done|]. simpl. lia.
    + injection Ha as <- <-. split; [set_solver|]. split; [done|]. simpl. lia.
  - unfold acknowledgeHandler.
    case_bool_decide as Hm; simpl; [case_bool_decide as Hid|].
    + intros [= <- <-]. split; [set_solver|]. split; [done|]. simpl. lia.
    + intros [= <- <-]. split; [set_solver|]. split; [done|]. done.
    + intros [= <- <-]. split; [set_solver|]. split; [done|]. simpl. lia.
  - unfold clearHandler. case_bool_decide as Hm; simpl.
    + destruct (ClearAcknowledgedAndResolved state) as [s1 n].
      intros [= <- <-]. split; [set_solver|]. split; [done|]. done.
    + intros [= <- <-]. split; [set_solver|]. split; [done|]. simpl. lia.
Qed.

Lemma only_answer_200_witness :
  ∃ (state' : AppState) (resp : Response),
    serve keyOnly RouteAcknowledge (post noHeaders "" (inl "")) (at_ 1) fresh
    = Some (state', resp)
    ∧ StatusCode resp = 400
    ∧ state' = fresh.
Proof.
  eexists _, _. split; [reflexivity|]. split; [reflexivity|].
  refine (proj1 (proj2 (only_answer_200_changes_the_store textLib keyOnly
                          RouteAcknowledge (post noHeaders "" (inl "")) (at_ 1)
                          fresh _ _ _)) _).
  - reflexivity.
  - discriminate.
Defined.

(** X17. A POST to [/clear] answers [Cleared n alerts] where [n] is the
    number of entries it removed from the store, and a second POST right
    after it answers [Cleared 0 alerts] and changes nothing. *)
Theorem clearHandler_reports_removed_entries
    (r : Request) (now now' : Time) (state : AppState) :
  Method r = "POST" →
  ∃ (state' : AppState) (n : Z),
    clearHandler r now state
    = Some (state', httpOK ("Cleared " +:+ pretty n +:+ " alerts"))
    ∧ n = Z.of_nat (length (alerts state)) - Z.of_nat (length (alerts state'))
    ∧ 0 ≤ n
    ∧ clearHandler r now' state' = Some (state', httpOK "Cleared 0 alerts").
Proof.
  intros Hm. unfold clearHandler. rewrite (bool_decide_eq_true_2 _ Hm). simpl.
  rewrite (ClearAcknowledgedAndResolved_clearFrom state).
  eexists _, _. split; [reflexivity|]. cbn [alerts].
  pose proof (clearFrom_count (alerts state) (acknowledged state)) as Hn.
  pose proof (sublist_length _ _ (clearFrom_sublist (alerts state) (acknowledged state))).
  split; [done|]. split; [lia|].
  rewrite ClearAcknowledgedAndResolved_clearFrom. cbn [alerts acknowledged maxSize].
  rewrite clearFrom_fixed; [done|].
  intros e He. by apply clearFrom_kept in He as [_ Hu].
Qed.

Lemma clearHandler_witness :
  ∃ (state' : AppState) (n : Z),
    clearHandler (post noHeaders "" (inl "")) (at_ 1) mixedStore
    = Some (state', httpOK ("Cleared " +:+ pretty n +:+ " alerts"))
    ∧ n = Z.of_nat (length (alerts mixedStore)) - Z.of_nat (length (alerts state'))
    ∧ 0 ≤ n
    ∧ clearHandler (post noHeaders "" (inl "")) (at_ 2) state'
      = Some (state', httpOK "Cleared 0 alerts").
Proof.
  apply (clearHandler_reports_removed_entries (post noHeaders "" (inl ""))
           (at_ 1) (at_ 2) mixedStore).
  reflexivity.
Defined.

(** * The hub *)

Lemma sendOf_insert (cs : gset nat) (m : gmap nat SendChan) (client : nat)
    (ch : SendChan) (c : nat) :
  sendOf {| clients := cs; sends := <[client := ch]> m |} c
  = if decide (client = c) then ch else sendOf {| clients := cs; sends := m |} c.
Proof.
  unfold sendOf. cbn [sends]. destruct (decide (client = c)) as [->|Hne].
  - by rewrite lookup_insert_eq.
  - by rewrite lookup_insert_ne.
Qed.

Lemma sendOf_clients (cs cs' : gset nat) (m : gmap nat SendChan) (c : nat) :
  sendOf {| clients := cs; sends := m |} c = sendOf {| clients := cs'; sends := m |} c.
Proof. reflexivity. Qed.

(** The loop of a broadcast over clients that are all open and pairwise
    distinct: nobody else is touched, and each of them got the message or
    was closed and dropped, according to the room in its buffer. *)
Lemma broadcastLoop_spec (message : string) (toVisit : list nat) :
  ∀ h : Hub,
    NoDup toVisit →
    (∀ c, c ∈ toVisit → isClosed (sendOf h c) = false) →
    ∃ h' : Hub,
      broadcastLoop message toVisit h = Some h'
      ∧ (∀ c, c ∈ clients h' ↔
              c ∈ clients h ∧ (c ∈ toVisit → hasRoom (sendOf h c) = true))
      ∧ (∀ c, sendOf h' c
              = if decide (c ∈ toVisit) then afterBroadcast message (sendOf h c)
                else sendOf h c).
Proof.
  induction toVisit as [|c0 rest IH]; intros h Hnd Hopen.
  - exists h. split; [done|]. split.
    + intros c. split; [intros Hc; split; [done|]; by intros ?%elem_of_nil|tauto].
    + intros c. rewrite decide_False; [done|]. apply not_elem_of_nil.
  - apply NoDup_cons in Hnd as [Hc0 Hnd].
    cbn [broadcastLoop]. rewrite (Hopen c0) by (by left).
    fold (hasRoom (sendOf h c0)).
    set (h1 := if hasRoom (sendOf h c0)
               then {| clients := clients h;
                       sends := <[c0 := {| buffered := buffered (sendOf h c0) ++ [message];
                                           isClosed := false |}]> (sends h) |}
               else {| clients := clients h ∖ {[c0]};
                       sends := <[c0 := {| buffered := buffered (sendOf h c0);
                                           isClosed := true |}]> (sends h) |}).
    assert (∀ c, sendOf h1 c
                 = if decide (c0 = c) then afterBroadcast message (sendOf h c0)
                   else sendOf h c) as Hsend1.
    { intros c. subst h1. unfold afterBroadcast.
      destruct (hasRoom (sendOf h c0)); rewrite sendOf_insert; by destruct h. }
    assert (∀ c, c ∈ clients h1 ↔
                 c ∈ clients h ∧ (c = c0 → hasRoom (sendOf h c0) = true)) as Hcl1.
    { intros c. subst h1. destruct (hasRoom (sendOf h c0)); cbn [clients].
      - tauto.
      - rewrite elem_of_difference, elem_of_singleton. split.
        + intros [Hc Hne]. split; [done|]. by intros ->.
        + intros [Hc Himp]. split; [done|]. intros ->. by specialize (Himp eq_refl). }
    destruct (IH h1 Hnd) as (h' & Hloop & Hcl & Hsend).
    { intros c Hc. rewrite Hsend1. rewrite decide_False by (by intros ->).
      apply Hopen. by right. }
    exists h'. split.
    { subst h1. by destruct (hasRoom (sendOf h c0)). }
    split.
    + intros c. rewrite Hcl, Hcl1, Hsend1. split.
      * intros [[Hc Himp0] Himp]. split; [done|].
        intros [->|Hin]%elem_of_cons; [by apply Himp0|].
        specialize (Himp Hin). rewrite decide_False in Himp; [done|].
        by intros ->.
      * intros [Hc Himp]. split; [split; [done|]|].
        -- intros ->. apply Himp. by left.
        -- intros Hin. rewrite decide_False by (by intros ->).
           apply Himp. by right.
    + intros c. rewrite Hsend, Hsend1.
      destruct (decide (c ∈ rest)) as [Hin|Hnot].
      * rewrite decide_False by (by intros <-).
        rewrite decide_True by (by right). done.
      * destruct (decide (c0 = c)) as [->|Hne].
        -- by rewrite decide_True by (by left).
        -- rewrite decide_False; [done|].
           intros [->|?]%elem_of_cons; done.
Qed.

(** X18. A broadcast over a hub whose registered clients all have an open
    channel does not panic.  Every registered client with room in its
    buffer stays registered and has the message at the end of its buffer;
    every registered client whose buffer is full is dropped from the hub
    and its channel closed, without the message; no other channel is
    touched. *)
Theorem broadcast_delivers_or_drops (h : Hub) (message : string) :
  (∀ c, c ∈ clients h → isClosed (sendOf h c) = false) →
  ∃ h' : Hub,
    hubStep h (EvBroadcast message) = Some h'
    ∧ (∀ c, c ∈ clients h' ↔ c ∈ clients h ∧ hasRoom (sendOf h c) = true)
    ∧ (∀ c, c ∈ clients h' →
            sendOf h' c = {| buffered := buffered (sendOf h c) ++ [message];
                             isClosed := false |})
    ∧ (∀ c, c ∈ clients h → c ∉ clients h' →
            sendOf h' c = {| buffered := buffered (sendOf h c); isClosed := true |})
    ∧ (∀ c, c ∉ clients h → sendOf h' c = sendOf h c).
Proof.
  intros Hopen. cbn [hubStep].
  destruct (broadcastLoop_spec message (elements (clients h)) h)
    as (h' & Hloop & Hcl & Hsend).
  { apply NoDup_elements. }
  { intros c Hc. apply Hopen. by apply elem_of_elements. }
  assert (∀ c, c ∈ clients h' ↔ c ∈ clients h ∧ hasRoom (sendOf h c) = true)
    as Hcl'.
  { intros c. rewrite Hcl, elem_of_elements. tauto. }
  exists h'. split; [done|]. split; [done|]. split; [|split].
  - intros c [Hc Hroom]%Hcl'. rewrite Hsend.
    rewrite decide_True by (by apply elem_of_elements).
    unfold afterBroadcast. by rewrite Hroom.
  - intros c Hc Hnot. rewrite Hsend.
    rewrite decide_True by (by apply elem_of_elements).
    unfold afterBroadcast. destruct (hasRoom (sendOf h c)) eqn:Hroom; [|done].
    destruct Hnot. by apply Hcl'.
  - intros c Hc. rewrite Hsend. rewrite decide_False; [done|].
    by rewrite elem_of_elements.
Qed.

Lemma broadcast_delivers_witness :
  ∃ h' : Hub,
    hubStep {| clients := {[1%nat; 2%nat]}; sends := ∅ |} (EvBroadcast "update")
    = Some h'
    ∧ (∀ c, c ∈ clients h' →
            sendOf h' c = {| buffered := ["update"]; isClosed := false |}).
Proof.
  destruct (broadcast_delivers_or_drops
              {| clients := {[1%nat; 2%nat]}; sends := ∅ |} "update")
    as (h' & Hstep & _ & Hsend & _).
  { intros c _. unfold sendOf. cbn [sends]. by rewrite lookup_empty. }
  exists h'. split; [exact Hstep|].
  intros c Hc. rewrite (Hsend c Hc). unfold sendOf. cbn [sends].
  by rewrite lookup_empty.
Defined.

(** ** The invariant of the hub *)

#[local] Set Warnings "-clear-no-such-hyp".

Lemma hubInv_step (met : gset nat) (h : Hub) (ev : HubEvent) :
  hubInv met h →
  (∀ c, ev = EvRegister c → c ∉ met) →
  ∃ h' : Hub,
    hubStep h ev = Some h'
    ∧ hubInv (match ev with EvRegister c => {[c]} ∪ met | _ => met end) h'.
Proof.
  intros (Hsub & Hclosed & Hcap) Hfresh. destruct ev as [c|c|message|c].
  - eexists. split; [reflexivity|]. specialize (Hfresh c eq_refl).
    split; [|split].
    + cbn [clients]. set_solver.
    + intros c' Hc'. cbn [clients].
      change (isClosed (sendOf h c') = true) in Hc'.
      destruct (Hclosed c' Hc') as [Hm Hn]. set_solver.
    + exact Hcap.
  - cbn [hubStep]. case_bool_decide as Hc; [|by exists h].
    destruct (isClosed (sendOf h c)) eqn:Hcl.
    { destruct (Hclosed c Hcl) as [_ Hn]. done. }
    eexists. split; [reflexivity|]. split; [|split].
    + cbn [clients]. set_solver.
    + intros c'. destruct h as [cs m]. rewrite sendOf_insert. cbn [clients] in *.
      destruct (decide (c = c')) as [<-|Hne].
      * intros _. split; [by apply Hsub|set_solver].
      * intros Hc'. destruct (Hclosed c' Hc') as [Hm Hn]. set_solver.
    + intros c'. destruct h as [cs m]. rewrite sendOf_insert.
      destruct (decide (c = c')) as [<-|Hne]; [apply Hcap|apply Hcap].
  - destruct (broadcastLoop_spec message (elements (clients h)) h)
      as (h' & Hloop & Hcl & Hsend).
    { apply NoDup_elements. }
    { intros c Hc%elem_of_elements. apply not_true_is_false. intros Hcl.
      by destruct (Hclosed c Hcl). }
    exists h'. split; [exact Hloop|]. split; [|split].
    + intros c [Hc _]%Hcl. by apply Hsub.
    + intros c. rewrite Hsend, Hcl. destruct (decide (c ∈ elements (clients h))) as [Hin|Hnot].
      * unfold afterBroadcast. destruct (hasRoom (sendOf h c)) eqn:Hroom; [done|].
        intros _. split; [by apply Hsub, elem_of_elements|].
        intros [_ Himp]. specialize (Himp Hin). congruence.
      * intros Hc. destruct (Hclosed c Hc) as [Hm Hn]. split; [done|tauto].
    + intros c. rewrite Hsend. destruct (decide (c ∈ elements (clients h))); [|apply Hcap].
      unfold afterBroadcast, hasRoom. case_bool_decide as Hroom; cbn [buffered].
      * rewrite length_app. simpl. lia.
      * apply Hcap.
  - eexists. split; [reflexivity|]. split; [|split].
    + exact Hsub.
    + intros c'. destruct h as [cs m]. rewrite sendOf_insert.
      destruct (decide (c = c')) as [<-|Hne]; cbn [isClosed clients]; apply Hclosed.
    + intros c'. destruct h as [cs m]. rewrite sendOf_insert.
      destruct (decide (c = c')) as [<-|Hne]; [|apply Hcap]. cbn [buffered].
      specialize (Hcap c). destruct (buffered (sendOf {| clients := cs; sends := m |} c));
        simpl in *; lia.
Qed.

Lemma hubInv_mono (met met' : gset nat) (h : Hub) :
  met ⊆ met' → hubInv met h → hubInv met' h.
Proof.
  intros Hsub (H1 & H2 & H3). split; [set_solver|]. split; [|done].
  intros c Hc. destruct (H2 c Hc). set_solver.
Qed.

Lemma hubInv_run (events : list HubEvent) :
  ∀ (met : gset nat) (h : Hub),
    hubInv met h →
    NoDup (registrations events) →
    (∀ c, c ∈ registrations events → c ∉ met) →
    ∃ h' : Hub,
      hubRun h events = Some h'
      ∧ hubInv (met ∪ list_to_set (registrations events)) h'.
Proof.
  induction events as [|ev events IH]; intros met h Hinv Hnd Hfresh.
  - exists h. split; [done|]. eapply hubInv_mono; [|done]. set_solver.
  - unfold registrations in *. cbn [map concat] in *.
    apply NoDup_app in Hnd as (_ & Hdisj & Hnd).
    destruct (hubInv_step met h ev Hinv) as (h1 & Hstep & Hinv1).
    { intros c ->. apply Hfresh. set_solver. }
    destruct (IH _ h1 Hinv1 Hnd) as (h' & Hrun & Hinv').
    { intros c Hc. destruct ev as [c0| | |]; try (apply Hfresh; set_solver).
      intros [Hin|Hin]%elem_of_union.
      - apply elem_of_singleton in Hin as ->. apply (Hdisj c0); set_solver.
      - apply (Hfresh c); [set_solver|done]. }
    exists h'. cbn [hubRun]. rewrite Hstep. split; [done|].
    eapply hubInv_mono; [|exact Hinv']. destruct ev; set_solver.
Qed.

(** X19. When every client is registered at most once (each connection
    makes its own), the loop of the hub never panics, whatever
    registrations, unregistrations, broadcasts and receptions it meets and
    in whatever order: no channel is closed twice and nothing is sent on a
    closed channel.  Afterwards every registered client has an open
    channel, every closed channel belongs to a client that is no longer
    registered, and no buffer holds more than 256 messages. *)
Theorem hub_never_panics (events : list HubEvent) :
  NoDup (registrations events) →
  ∃ h : Hub,
    hubRun newHub events = Some h
    ∧ (∀ c, c ∈ clients h → isClosed (sendOf h c) = false)
    ∧ (∀ c, isClosed (sendOf h c) = true →
            c ∈ registrations events ∧ c ∉ clients h)
    ∧ (∀ c, (length (buffered (sendOf h c)) ≤ 256)%nat).
Proof.
  intros Hnd.
  destruct (hubInv_run events ∅ newHub) as (h & Hrun & Hsub & Hclosed & Hcap).
  - assert (∀ c, sendOf newHub c = {| buffered := []; isClosed := false |})
      as Hnew by (intros c; unfold sendOf, newHub; cbn [sends]; by rewrite lookup_empty).
    split; [done|]. split; intros c; rewrite Hnew; [done|]. simpl. lia.
  - done.
  - intros c _. apply not_elem_of_empty.
  - exists h. split; [done|]. split; [|split; [|exact Hcap]].
    + intros c Hc. apply not_true_is_false. intros Hcl.
      by destruct (Hclosed c Hcl).
    + intros c Hcl. destruct (Hclosed c Hcl) as [Hm Hn]. split; [|done].
      set_solver.
Qed.

Lemma hub_never_panics_witness :
  ∃ h : Hub,
    hubRun newHub
      [EvRegister 1%nat; EvBroadcast "update"; EvUnregister 1%nat;
       EvUnregister 1%nat; EvRegister 2%nat; EvBroadcast "update"] = Some h
    ∧ (∀ c, c ∈ clients h → isClosed (sendOf h c) = false).
Proof.
  destruct (hub_never_panics
              [EvRegister 1%nat; EvBroadcast "update"; EvUnregister 1%nat;
               EvUnregister 1%nat; EvRegister 2%nat; EvBroadcast "update"])
    as (h & Hrun & Hopen & _).
  - apply (bool_decide_unpack _). vm_compute. exact I.
  - exists h. split; [exact Hrun|exact Hopen].
Defined.

(** A client that is registered again after its channel was closed makes
    the next broadcast panic: the condition of X19 is needed. *)
Lemma registering_a_closed_client_panics :
  hubRun newHub registeredAgain = None.
Proof. vm_compute. reflexivity. Qed.
